(** * Dispatch routers of vumi ([vumi/dispatchers/base.py])

    A shallow embedding of the routing logic of the dispatch worker: the
    message bus, the logger and the Redis store are threaded through an explicit
    world, Python exceptions are results, and every router class is a
    module whose functions follow the methods of the class.

    A configuration is a record: a key that the code reads with
    [config[key]] is a field, a key that it reads with [config.get] is an
    optional field. Dictionaries are finite maps; where the code iterates
    over one, the order of [map_to_list] stands for the order of the
    dictionary. Strings are byte strings. *)

From Stdlib Require Import ZArith String Ascii List DecimalString DecimalZ.
From stdpp Require Import gmap strings list fin_maps sorting.

Local Open Scope Z_scope.
Local Open Scope string_scope.

(** ** Python strings *)

(** [str.lower] on byte strings: the letters [A]-[Z] are mapped to
    [a]-[z], every other byte is kept. *)
Definition lower_ascii (c : ascii) : ascii :=
  let n := N_of_ascii c in
  if ((65 <=? n) && (n <=? 90))%N then ascii_of_N (n + 32) else c.

Fixpoint lower (s : string) : string :=
  match s with
  | EmptyString => EmptyString
  | String c rest => String (lower_ascii c) (lower rest)
  end.

(** [s.startswith(p)] *)
Fixpoint startswith (s p : string) : bool :=
  match p, s with
  | EmptyString, _ => true
  | String _ _, EmptyString => false
  | String a p', String b s' => if Ascii.eqb a b then startswith s' p' else false
  end.

(** [':'.join(parts)] *)
Fixpoint join_colon (parts : list string) : string :=
  match parts with
  | [] => EmptyString
  | [p] => p
  | p :: rest => p +:+ ":" +:+ join_colon rest
  end.

(** Decimal rendering and parsing of integers, as the store keeps counters. *)
Definition Z_to_string (z : Z) : string := NilZero.string_of_int (Z.to_int z).

Definition Z_of_string (s : string) : option Z :=
  Z.of_int <$> NilZero.int_of_string s.

(** Comparison of [(name, app)] tuples, as [sorted] compares the items of a
    dictionary: by the first component, then by the second. *)
Definition item_leb (a b : string * string) : bool :=
  match String.compare a.1 b.1 with
  | Lt => true
  | Eq => String.leb a.2 b.2
  | Gt => false
  end.

Fixpoint insert_sorted (x : string * string) (l : list (string * string))
  : list (string * string) :=
  match l with
  | [] => [x]
  | y :: rest => if item_leb x y then x :: y :: rest else y :: insert_sorted x rest
  end.

(** [sorted(items)] *)
Definition sorted (l : list (string * string)) : list (string * string) :=
  foldr insert_sorted [] l.

(** ** Messages *)

Record TransportUserMessage := {
  transport_name : string;
  to_addr : string;
  from_addr : string;
  content : option string;
  message_id : string
}.

Record TransportEvent := {
  event_transport_name : string;
  user_message_id : string
}.

(** What travels on the bus: a user message or an event. *)
Inductive payload :=
| UserMessage (m : TransportUserMessage)
| Event (e : TransportEvent).

(** [msg['transport_name'] = name] *)
Definition set_transport_name (name : string) (p : payload) : payload :=
  match p with
  | UserMessage m =>
      UserMessage {| transport_name := name; to_addr := to_addr m;
                     from_addr := from_addr m; content := content m;
                     message_id := message_id m |}
  | Event e =>
      Event {| event_transport_name := name;
               user_message_id := user_message_id e |}
  end.

(** Modelled from the spec: [TransportUserMessage.user] lives in
    [vumi.message], which is not among the sources; the user identifier is
    derived from [from_addr]. *)
Definition user (m : TransportUserMessage) : string := from_addr m.

(** ** Exceptions and diagnostics *)

(** A routing rule of the keyword router is a dictionary whose keys are
    among [app], [keyword], [to_addr] and [prefix]; an absent key is [None]. *)
Record rule := Rule {
  rule_app : option string;
  rule_keyword : option string;
  rule_to_addr : option string;
  rule_prefix : option string
}.

(** The two [ConfigError]s raised by the routers. *)
Inductive config_error :=
| OnlyOneExposedNameAllowed
| RuleMustContainAppAndKeyword (r : rule).

Inductive exn :=
| KeyError (key : option string)
| ConfigError (why : config_error)
| RegexError (pattern : string)
| ZeroDivisionError
| IndexError
| ResponseError.

Inductive result (A : Type) :=
| Ok (a : A)
| Raise (e : exn).
Arguments Ok {A} a.
Arguments Raise {A} e.

(** One constructor per [log.error] call of the routers. *)
Inductive diagnostic :=
| MessageCouldNotBeRouted (m : TransportUserMessage)
| NoReturnRoute (user_message_id : string)
| NoPublishingRoute (name : option string)
| NoTransportFor (from_addr : string).

(** ** The world: clock, store, bus and log *)

Record entry := Entry {
  value : string;
  expires_at : option Z
}.

Record publication := Publication {
  routing_key : string;
  body : payload
}.

Record world := World {
  clock : Z;
  redis_db : gmap string entry;
  published : list publication;
  logged : list diagnostic
}.

(** An entry is visible until the clock reaches its expiry time. *)
Definition live (now : Z) (e : entry) : bool :=
  match expires_at e with
  | None => true
  | Some t => (now <? t)%Z
  end.

Definition lookup_live (w : world) (key : string) : option string :=
  match redis_db w !! key with
  | Some e => if live (clock w) e then Some (value e) else None
  | None => None
  end.

Definition with_db (w : world) (db : gmap string entry) : world :=
  {| clock := clock w; redis_db := db;
     published := published w; logged := logged w |}.

(** The world after the publications [l] have been sent. *)
Definition publish_all (w : world) (l : list publication) : world :=
  {| clock := clock w; redis_db := redis_db w;
     published := published w ++ l; logged := logged w |}.

(** The world after the diagnostics [l] have been logged. *)
Definition log_all (w : world) (l : list diagnostic) : world :=
  {| clock := clock w; redis_db := redis_db w;
     published := published w; logged := logged w ++ l |}.

(** Time passing between two dispatches. *)
Definition advance (d : Z) (w : world) : world :=
  {| clock := clock w + d; redis_db := redis_db w;
     published := published w; logged := logged w |}.

(** ** The monad of dispatch code: state and exceptions *)

Definition M (A : Type) : Type := world → result A * world.

Definition ret {A} (a : A) : M A := λ w, (Ok a, w).

Definition bind {A B} (c : M A) (k : A → M B) : M B :=
  λ w, match c w with
       | (Ok a, w') => k a w'
       | (Raise e, w') => (Raise e, w')
       end.

Definition raise {A} (e : exn) : M A := λ w, (Raise e, w).

(** [try: body except: handler] with a bare [except]. *)
Definition try_except {A} (body : M A) (handler : M A) : M A :=
  λ w, match body w with
       | (Ok a, w') => (Ok a, w')
       | (Raise _, w') => handler w'
       end.

Declare Scope dispatch_scope.
Delimit Scope dispatch_scope with dispatch.
Notation "x <- c ;; k" := (bind c (λ x, k))
  (at level 100, c at next level, right associativity) : dispatch_scope.
Notation "c ;;; k" := (bind c (λ _, k))
  (at level 100, right associativity) : dispatch_scope.
Local Open Scope dispatch_scope.

(** [for x in l: body(x)] *)
Fixpoint for_each {A} (l : list A) (body : A → M unit) : M unit :=
  match l with
  | [] => ret tt
  | x :: rest => body x ;;; for_each rest body
  end.

(** [d[key]] on a dictionary with string keys. *)
Definition getitem {V} (d : gmap string V) (key : string) : M V :=
  match d !! key with
  | Some v => ret v
  | None => raise (KeyError (Some key))
  end.

(** [d[key]] where [key] may be [None], which is never a key. *)
Definition getitem_opt {V} (d : gmap string V) (key : option string) : M V :=
  match key with
  | Some k => getitem d k
  | None => raise (KeyError None)
  end.

Definition log_error (d : diagnostic) : M unit :=
  λ w, (Ok tt, {| clock := clock w; redis_db := redis_db w;
                  published := published w; logged := logged w ++ [d] |}).

(** [publisher.publish_message(msg)]: a publisher is the routing key it was
    opened on. *)
Definition publish_message (publisher : string) (msg : payload) : M unit :=
  λ w, (Ok tt, {| clock := clock w; redis_db := redis_db w;
                  published := published w ++ [Publication publisher msg];
                  logged := logged w |}).

(** ** The key-value store *)

(** Modelled from the spec: the Redis client is an external collaborator;
    the store supports get, set, atomic increment (starting effectively at
    0) and expiry on string keys. *)
Definition r_get (key : string) : M (option string) :=
  λ w, (Ok (lookup_live w key), w).

Definition r_set (key val : string) : M unit :=
  λ w, (Ok tt, with_db w (<[key := Entry val None]> (redis_db w))).

Definition r_incr (key : string) : M Z :=
  λ w, match redis_db w !! key with
       | Some e =>
           if live (clock w) e then
             match Z_of_string (value e) with
             | Some n =>
                 (Ok (n + 1),
                  with_db w (<[key := Entry (Z_to_string (n + 1)) (expires_at e)]>
                               (redis_db w)))
             | None => (Raise ResponseError, w)
             end
           else (Ok 1, with_db w (<[key := Entry (Z_to_string 1) None]> (redis_db w)))
       | None => (Ok 1, with_db w (<[key := Entry (Z_to_string 1) None]> (redis_db w)))
       end.

Definition r_expire (key : string) (ttl : Z) : M bool :=
  λ w, match redis_db w !! key with
       | Some e =>
           if live (clock w) e then
             (Ok true,
              with_db w (<[key := Entry (value e) (Some (clock w + ttl))]>
                           (redis_db w)))
           else (Ok false, w)
       | None => (Ok false, w)
       end.

(** ** The dispatch worker *)

Record BaseDispatchWorker := {
  _transport_names : list string;
  _exposed_names : list string
}.

(** [setup_endpoints]: both lists default to the empty list. *)
Definition setup_endpoints (transport_names exposed_names : option (list string))
  : BaseDispatchWorker :=
  {| _transport_names := default [] transport_names;
     _exposed_names := default [] exposed_names |}.

(** The publisher dictionaries: one publisher per name, opened on
    [name.suffix]. *)
Definition publishers (suffix : string) (names : list string) : gmap string string :=
  list_to_map ((λ name, (name, name +:+ suffix)) <$> names).

Definition transport_publisher (d : BaseDispatchWorker) : gmap string string :=
  publishers ".outbound" (_transport_names d).

Definition exposed_publisher (d : BaseDispatchWorker) : gmap string string :=
  publishers ".inbound" (_exposed_names d).

Definition exposed_event_publisher (d : BaseDispatchWorker) : gmap string string :=
  publishers ".event" (_exposed_names d).

(** ** Collaborators outside the sources *)

(** Python's [re] module: [re_compile] fails on an invalid pattern, and
    [re_match] is [regex.match], which looks for a match starting at
    position zero of the string. *)
Class Regex := {
  pattern : Type;
  re_compile : string → option pattern;
  re_match : pattern → string → bool
}.

(** [vumi.utils.get_first_word], which is not among the sources; the
    content of a message may be [None]. *)
Class VumiUtils := {
  get_first_word : option string → string
}.

(** ** SimpleDispatchRouter *)

Module SimpleDispatchRouter.

Record config := {
  route_mappings : gmap string (list string);
  transport_mappings : option (gmap string string)
}.

Definition dispatch_inbound_message (d : BaseDispatchWorker) (cfg : config)
    (msg : TransportUserMessage) : M unit :=
  names <- getitem (route_mappings cfg) (transport_name msg) ;;
  for_each names (λ name,
    p <- getitem (exposed_publisher d) name ;;
    publish_message p (UserMessage msg)).

Definition dispatch_inbound_event (d : BaseDispatchWorker) (cfg : config)
    (msg : TransportEvent) : M unit :=
  names <- getitem (route_mappings cfg) (event_transport_name msg) ;;
  for_each names (λ name,
    p <- getitem (exposed_event_publisher d) name ;;
    publish_message p (Event msg)).

Definition dispatch_outbound_message (d : BaseDispatchWorker) (cfg : config)
    (msg : TransportUserMessage) : M unit :=
  let name := transport_name msg in
  let name := default name (default ∅ (transport_mappings cfg) !! name) in
  p <- getitem (transport_publisher d) name ;;
  publish_message p (UserMessage msg).

End SimpleDispatchRouter.

(** ** TransportToTransportRouter *)

Module TransportToTransportRouter.

Record config := {
  route_mappings : gmap string (list string)
}.

(** [publish_message(msg, routing_key=rkey)] publishes on [rkey] whatever
    the publisher was opened on. *)
Definition dispatch_inbound_message (d : BaseDispatchWorker) (cfg : config)
    (msg : TransportUserMessage) : M unit :=
  names <- getitem (route_mappings cfg) (transport_name msg) ;;
  for_each names (λ name,
    let rkey := name +:+ ".outbound" in
    _ <- getitem (transport_publisher d) name ;;
    publish_message rkey (UserMessage msg)).

Definition dispatch_inbound_event (d : BaseDispatchWorker) (cfg : config)
    (msg : TransportEvent) : M unit :=
  ret tt.

Definition dispatch_outbound_message (d : BaseDispatchWorker) (cfg : config)
    (msg : TransportUserMessage) : M unit :=
  ret tt.

End TransportToTransportRouter.

(** ** ToAddrRouter *)

Module ToAddrRouter.
Section ToAddrRouter.
Context `{Regex}.

Record config := {
  toaddr_mappings : gmap string string
}.

Record t := {
  mappings : list (string * pattern)
}.

Fixpoint compile_all (items : list (string * string))
  : result (list (string * pattern)) :=
  match items with
  | [] => Ok []
  | (name, toaddr_pattern) :: rest =>
      match re_compile toaddr_pattern with
      | None => Raise (RegexError toaddr_pattern)
      | Some regex =>
          match compile_all rest with
          | Ok l => Ok ((name, regex) :: l)
          | Raise e => Raise e
          end
      end
  end.

Definition setup_routing (cfg : config) : result t :=
  match compile_all (map_to_list (toaddr_mappings cfg)) with
  | Ok l => Ok {| mappings := l |}
  | Raise e => Raise e
  end.

Definition dispatch_inbound_message (d : BaseDispatchWorker) (self : t)
    (msg : TransportUserMessage) : M unit :=
  let toaddr := to_addr msg in
  for_each (mappings self) (λ '(name, regex),
    if re_match regex toaddr then
      p <- getitem (exposed_publisher d) name ;;
      publish_message p (UserMessage msg)
    else ret tt).

Definition dispatch_inbound_event (d : BaseDispatchWorker) (self : t)
    (msg : TransportEvent) : M unit :=
  ret tt.

End ToAddrRouter.
End ToAddrRouter.

(** ** FromAddrMultiplexRouter *)

Module FromAddrMultiplexRouter.

Record config := {
  exposed_names : list string;
  fromaddr_mappings : gmap string string
}.

Record t := {
  cfg : config;
  exposed_name : string
}.

Definition setup_routing (c : config) : result t :=
  match exposed_names c with
  | [name] => Ok {| cfg := c; exposed_name := name |}
  | _ => Raise (ConfigError OnlyOneExposedNameAllowed)
  end.

(** The message is rewritten in place; the rewritten message is what is
    published and what the caller holds afterwards, so it is returned. *)
Definition _handle_inbound (self : t) (msg : payload) (publisher : string)
  : M payload :=
  let msg := set_transport_name (exposed_name self) msg in
  publish_message publisher msg ;;;
  ret msg.

Definition dispatch_inbound_message (d : BaseDispatchWorker) (self : t)
    (msg : TransportUserMessage) : M payload :=
  p <- getitem (exposed_publisher d) (exposed_name self) ;;
  _handle_inbound self (UserMessage msg) p.

Definition dispatch_inbound_event (d : BaseDispatchWorker) (self : t)
    (msg : TransportEvent) : M payload :=
  p <- getitem (exposed_event_publisher d) (exposed_name self) ;;
  _handle_inbound self (Event msg) p.

Definition dispatch_outbound_message (d : BaseDispatchWorker) (self : t)
    (msg : TransportUserMessage) : M payload :=
  name <- getitem (fromaddr_mappings (cfg self)) (from_addr msg) ;;
  let msg := set_transport_name name (UserMessage msg) in
  p <- getitem (transport_publisher d) name ;;
  publish_message p msg ;;;
  ret msg.

End FromAddrMultiplexRouter.

(** ** UserGroupingRouter *)

Module UserGroupingRouter.

Record config := {
  dispatcher_name : string;
  group_mappings : gmap string string
}.

Record t := {
  r_prefix : string;
  groups : gmap string string;
  nr_of_groups : Z
}.

(** [__init__] followed by [setup_routing]. *)
Definition setup_routing (c : config) : t :=
  {| r_prefix := dispatcher_name c;
     groups := group_mappings c;
     nr_of_groups := Z.of_nat (size (group_mappings c)) |}.

Definition r_key (self : t) (parts : list string) : string :=
  join_colon (r_prefix self :: parts).

Definition get_counter (self : t) : M Z :=
  let counter_key := r_key self ["round-robin"] in
  n <- r_incr counter_key ;;
  ret (n - 1).

Definition get_next_group (self : t) : M (string * string) :=
  counter <- get_counter self ;;
  if (nr_of_groups self =? 0)%Z then raise ZeroDivisionError
  else
    let current_group_id := counter `mod` nr_of_groups self in
    let sorted_groups := sorted (map_to_list (groups self)) in
    match sorted_groups !! Z.to_nat current_group_id with
    | Some group => ret group
    | None => raise IndexError
    end.

Definition get_group_key (self : t) (group_name : string) : string :=
  r_key self ["group"; group_name].

Definition get_user_key (self : t) (user_id : string) : string :=
  r_key self ["user"; user_id].

(** [if not group] holds for [None] and for the empty string. *)
Definition get_group_for_user (self : t) (user_id : string) : M string :=
  let user_key := get_user_key self user_id in
  group <- r_get user_key ;;
  match group with
  | Some (String c g) => ret (String c g)
  | _ =>
      next <- get_next_group self ;;
      let group := next.1 in
      r_set user_key group ;;;
      ret group
  end.

Definition dispatch_inbound_message (d : BaseDispatchWorker) (self : t)
    (msg : TransportUserMessage) : M unit :=
  group <- get_group_for_user self (user msg) ;;
  app <- getitem (groups self) group ;;
  p <- getitem (exposed_publisher d) app ;;
  publish_message p (UserMessage msg).

End UserGroupingRouter.

(** ** ContentKeywordRouter *)

Module ContentKeywordRouter.
Section ContentKeywordRouter.
Context `{VumiUtils}.

Record config := {
  cfg_dispatcher_name : string;
  cfg_rules : option (list rule);
  cfg_keyword_mappings : option (gmap string string);
  cfg_fallback_application : option string;
  cfg_transport_mappings : gmap string string;
  cfg_expire_routing_memory : Z
}.

Record t := {
  r_prefix : string;
  rules : list rule;
  fallback_application : option string;
  transport_mappings : gmap string string;
  expire_routing_timeout : Z
}.

(** The loop over the explicit rules: a rule without [keyword] or [app]
    stops the setup, the others are copied with a lower-case keyword. *)
Fixpoint load_rules (l : list rule) : result (list rule) :=
  match l with
  | [] => Ok []
  | r :: rest =>
      match rule_keyword r, rule_app r with
      | Some keyword, Some _ =>
          match load_rules rest with
          | Ok loaded =>
              Ok (Rule (rule_app r) (Some (lower keyword))
                       (rule_to_addr r) (rule_prefix r) :: loaded)
          | Raise e => Raise e
          end
      | _, _ => Raise (ConfigError (RuleMustContainAppAndKeyword r))
      end
  end.

(** The rules made from [keyword_mappings]. *)
Definition mapping_rules (km : gmap string string) : list rule :=
  (λ '(transport_name, keyword),
     Rule (Some transport_name) (Some (lower keyword)) None None)
    <$> map_to_list km.

Definition setup_routing (c : config) : result t :=
  match load_rules (default [] (cfg_rules c)) with
  | Raise e => Raise e
  | Ok explicit =>
      Ok {| r_prefix := cfg_dispatcher_name c;
            rules := explicit ++ mapping_rules (default ∅ (cfg_keyword_mappings c));
            fallback_application := cfg_fallback_application c;
            transport_mappings := cfg_transport_mappings c;
            expire_routing_timeout := cfg_expire_routing_memory c |}
  end.

Definition r_key (self : t) (parts : list string) : string :=
  join_colon (r_prefix self :: parts).

Definition get_message_key (self : t) (message : string) : string :=
  r_key self ["message"; message].

Definition publish_transport (d : BaseDispatchWorker) (name : string)
    (msg : payload) : M unit :=
  p <- getitem (transport_publisher d) name ;;
  publish_message p msg.

Definition publish_exposed_inbound (d : BaseDispatchWorker) (name : string)
    (msg : payload) : M unit :=
  p <- getitem (exposed_publisher d) name ;;
  publish_message p msg.

(** The name comes from the store and may be [None]. *)
Definition publish_exposed_event (d : BaseDispatchWorker) (name : option string)
    (msg : payload) : M unit :=
  p <- getitem_opt (exposed_event_publisher d) name ;;
  publish_message p msg.

(** [rule[key]] *)
Definition rule_getitem (key : string) (field : option string) : M string :=
  match field with
  | Some v => ret v
  | None => raise (KeyError (Some key))
  end.

Definition is_msg_matching_routing_rules (keyword : string)
    (msg : TransportUserMessage) (r : rule) : M bool :=
  rule_keyword <- rule_getitem "keyword" (rule_keyword r) ;;
  ret (forallb id
         [String.eqb keyword rule_keyword;
          match rule_to_addr r with
          | None => true
          | Some a => String.eqb (to_addr msg) a
          end;
          match rule_prefix r with
          | None => true
          | Some p => startswith (from_addr msg) p
          end]).

(** The loop of [dispatch_inbound_message], carrying the flag [matched]. *)
Fixpoint dispatch_rules (d : BaseDispatchWorker) (keyword : string)
    (msg : TransportUserMessage) (l : list rule) (matched : bool) : M bool :=
  match l with
  | [] => ret matched
  | r :: rest =>
      b <- is_msg_matching_routing_rules keyword msg r ;;
      if b then
        app <- rule_getitem "app" (rule_app r) ;;
        publish_exposed_inbound d app (UserMessage msg) ;;;
        dispatch_rules d keyword msg rest true
      else dispatch_rules d keyword msg rest matched
  end.

Definition dispatch_inbound_message (d : BaseDispatchWorker) (self : t)
    (msg : TransportUserMessage) : M unit :=
  let keyword := lower (get_first_word (content msg)) in
  matched <- dispatch_rules d keyword msg (rules self) false ;;
  if negb matched then
    match fallback_application self with
    | Some fallback => publish_exposed_inbound d fallback (UserMessage msg)
    | None => log_error (MessageCouldNotBeRouted msg)
    end
  else ret tt.

(** [if not name] holds for [None] and for the empty string. *)
Definition dispatch_inbound_event (d : BaseDispatchWorker) (self : t)
    (msg : TransportEvent) : M unit :=
  let message_key := get_message_key self (user_message_id msg) in
  name <- r_get message_key ;;
  match name with
  | Some (String _ _) => ret tt
  | _ => log_error (NoReturnRoute (user_message_id msg))
  end ;;;
  try_except
    (publish_exposed_event d name (Event msg))
    (log_error (NoPublishingRoute name)).

Definition dispatch_outbound_message (d : BaseDispatchWorker) (self : t)
    (msg : TransportUserMessage) : M unit :=
  match transport_mappings self !! from_addr msg with
  | Some transport_name' =>
      publish_transport d transport_name' (UserMessage msg) ;;;
      let message_key := get_message_key self (message_id msg) in
      r_set message_key (transport_name msg) ;;;
      _ <- r_expire message_key (expire_routing_timeout self) ;;
      ret tt
  | None => log_error (NoTransportFor (from_addr msg))
  end.

End ContentKeywordRouter.
End ContentKeywordRouter.

(** ** The router of a dispatch worker *)

Section Router.
Context `{Regex} `{VumiUtils}.

(** The configuration, tagged with the router class it names. *)
Inductive router_config :=
| SimpleConfig (c : SimpleDispatchRouter.config)
| TransportToTransportConfig (c : TransportToTransportRouter.config)
| ToAddrConfig (c : ToAddrRouter.config)
| FromAddrMultiplexConfig (c : FromAddrMultiplexRouter.config)
| UserGroupingConfig (c : UserGroupingRouter.config)
| ContentKeywordConfig (c : ContentKeywordRouter.config).

Inductive router :=
| Simple (c : SimpleDispatchRouter.config)
| TransportToTransport (c : TransportToTransportRouter.config)
| ToAddr (r : ToAddrRouter.t)
| FromAddrMultiplex (r : FromAddrMultiplexRouter.t)
| UserGrouping (r : UserGroupingRouter.t)
| ContentKeyword (r : ContentKeywordRouter.t).

(** [setup_router]: build the router, which runs its [setup_routing]. *)
Definition setup_router (c : router_config) : result router :=
  match c with
  | SimpleConfig c => Ok (Simple c)
  | TransportToTransportConfig c => Ok (TransportToTransport c)
  | ToAddrConfig c =>
      match ToAddrRouter.setup_routing c with
      | Ok r => Ok (ToAddr r)
      | Raise e => Raise e
      end
  | FromAddrMultiplexConfig c =>
      match FromAddrMultiplexRouter.setup_routing c with
      | Ok r => Ok (FromAddrMultiplex r)
      | Raise e => Raise e
      end
  | UserGroupingConfig c => Ok (UserGrouping (UserGroupingRouter.setup_routing c))
  | ContentKeywordConfig c =>
      match ContentKeywordRouter.setup_routing c with
      | Ok r => Ok (ContentKeyword r)
      | Raise e => Raise e
      end
  end.

(** [BaseDispatchWorker.dispatch_inbound_message] hands the message to the
    router. The result is the message object as the call leaves it. *)
Definition dispatch_inbound_message (d : BaseDispatchWorker) (r : router)
    (msg : TransportUserMessage) : M payload :=
  match r with
  | Simple c =>
      SimpleDispatchRouter.dispatch_inbound_message d c msg ;;;
      ret (UserMessage msg)
  | TransportToTransport c =>
      TransportToTransportRouter.dispatch_inbound_message d c msg ;;;
      ret (UserMessage msg)
  | ToAddr r =>
      ToAddrRouter.dispatch_inbound_message d r msg ;;;
      ret (UserMessage msg)
  | FromAddrMultiplex r =>
      FromAddrMultiplexRouter.dispatch_inbound_message d r msg
  | UserGrouping r =>
      UserGroupingRouter.dispatch_inbound_message d r msg ;;;
      ret (UserMessage msg)
  | ContentKeyword r =>
      ContentKeywordRouter.dispatch_inbound_message d r msg ;;;
      ret (UserMessage msg)
  end.

End Router.

(** The names of the queues published on between two worlds. *)
Definition destinations_since (w w' : world) : list string :=
  routing_key <$> drop (length (published w)) (published w').

Definition diagnostics_since (w w' : world) : list diagnostic :=
  drop (length (logged w)) (logged w').

(** ** Sample collaborators *)

(** A small pattern engine: an optional leading caret, then literal
    characters and dots; any other metacharacter is refused. *)
Module LiteralRegex.

Definition is_meta (c : ascii) : bool :=
  existsb (Ascii.eqb c) (list_ascii_of_string "\[](){}*+?|$^").

Fixpoint compile_body (s : string) : option (list (option ascii)) :=
  match s with
  | EmptyString => Some []
  | String c rest =>
      if is_meta c then None
      else
        match compile_body rest with
        | Some l => Some ((if Ascii.eqb c "." then None else Some c) :: l)
        | None => None
        end
  end.

Definition compile (s : string) : option (list (option ascii)) :=
  match s with
  | String "^" rest => compile_body rest
  | _ => compile_body s
  end.

Fixpoint match_at (p : list (option ascii)) (s : string) : bool :=
  match p, s with
  | [], _ => true
  | _ :: _, EmptyString => false
  | None :: p', String _ s' => match_at p' s'
  | Some a :: p', String b s' => if Ascii.eqb a b then match_at p' s' else false
  end.

Definition engine : Regex :=
  {| pattern := list (option ascii); re_compile := compile; re_match := match_at |}.

End LiteralRegex.

Module SpecUtils.

Definition is_space (c : ascii) : bool :=
  existsb (N.eqb (N_of_ascii c)) [9; 10; 11; 12; 13; 32]%N.

Fixpoint skip_spaces (s : string) : string :=
  match s with
  | EmptyString => EmptyString
  | String c rest => if is_space c then skip_spaces rest else s
  end.

Fixpoint take_word (s : string) : string :=
  match s with
  | EmptyString => EmptyString
  | String c rest => if is_space c then EmptyString else String c (take_word rest)
  end.

(** Modelled from the spec: [vumi.utils.get_first_word] is not among the
    sources; it yields the first whitespace-delimited token of the
    content, and the empty string when there is none. *)
Definition first_word (content : option string) : string :=
  take_word (skip_spaces (default EmptyString content)).

Definition utils : VumiUtils := {| get_first_word := first_word |}.

End SpecUtils.

(** ** The matching rule of the keyword router, in the words of its documentation *)

(** A rule matches when the first word of the message is its keyword, its
    [to_addr], if any, is the [to_addr] of the message, and its [prefix],
    if any, starts the [from_addr] of the message. *)
Definition rule_matches (keyword : string) (msg : TransportUserMessage) (r : rule)
  : bool :=
  match rule_keyword r with
  | Some k => String.eqb keyword k
  | None => false
  end
  && match rule_to_addr r with
     | Some a => String.eqb (to_addr msg) a
     | None => true
     end
  && match rule_prefix r with
     | Some p => startswith (from_addr msg) p
     | None => true
     end.

(** A rule as the setup stores it: the same rule, its keyword in lower case. *)
Definition lower_keyword (r : rule) : rule :=
  Rule (rule_app r) (lower <$> rule_keyword r) (rule_to_addr r) (rule_prefix r).

Definition lacks_app_or_keyword (r : rule) : Prop :=
  rule_app r = None ∨ rule_keyword r = None.

(** Every rule that the setup stores has an app and a lower-case keyword. *)
Definition loaded_rule (r : rule) : Prop :=
  is_Some (rule_app r) ∧ ∃ k, rule_keyword r = Some k ∧ lower k = k.

(** A rule whose keys the loop reads without failure, and whose app has a
    publisher. *)
Definition routable (d : BaseDispatchWorker) (r : rule) : Prop :=
  is_Some (rule_keyword r) ∧ ∃ app, rule_app r = Some app ∧ app ∈ _exposed_names d.

(** ** The round robin of the grouping router, as a user observes it *)

(** The value of a counter of the store: zero when the key is absent, the
    integer it holds otherwise. *)
Definition counter_value (w : world) (key : string) : option Z :=
  match lookup_live w key with
  | None => Some 0
  | Some s => Z_of_string s
  end.

(** The name of the group at position [counter mod nr_of_groups] of the
    sorted groups. *)
Definition group_at (self : UserGroupingRouter.t) (counter : Z) : option string :=
  fst <$> sorted (map_to_list (UserGroupingRouter.groups self))
            !! Z.to_nat (counter `mod` UserGroupingRouter.nr_of_groups self).

(** The groups of a list of users, asked for one after the other. *)
Fixpoint get_groups_for_users (self : UserGroupingRouter.t) (users : list string)
  : M (list string) :=
  match users with
  | [] => ret []
  | u :: rest =>
      g <- UserGroupingRouter.get_group_for_user self u ;;
      gs <- get_groups_for_users self rest ;;
      ret (g :: gs)
  end.

(** The store after an increment of the counter [key] that read [c]. *)
Definition incremented (w : world) (key : string) (c : Z) : world :=
  with_db w
    (<[key := Entry (Z_to_string (c + 1))
                (match redis_db w !! key with
                 | Some e => if live (clock w) e then expires_at e else None
                 | None => None
                 end)]> (redis_db w)).

(** The store after [key] has been set to [val]. *)
Definition stored (w : world) (key val : string) : world :=
  with_db w (<[key := Entry val None]> (redis_db w)).

(** The world after an outbound message has been sent on [transport] and
    its correlation entry written. *)
Definition correlated (self : ContentKeywordRouter.t) (transport : string)
    (msg : TransportUserMessage) (w : world) : world :=
  let w := publish_all w [Publication (transport +:+ ".outbound") (UserMessage msg)] in
  with_db w
    (<[ContentKeywordRouter.get_message_key self (message_id msg) :=
         Entry (transport_name msg)
               (Some (clock w + ContentKeywordRouter.expire_routing_timeout self))]>
       (redis_db w)).

(** ** Dispatching twice *)

(** The world after the publications [pubs] and the diagnostics [logs]. *)
Definition emit (w : world) (pubs : list publication) (logs : list diagnostic)
  : world :=
  {| clock := clock w; redis_db := redis_db w;
     published := published w ++ pubs; logged := logged w ++ logs |}.

(** A computation that neither reads nor writes the store or the clock:
    its result, its publications and its diagnostics are the same in every
    world. *)
Definition stateless {A} (c : M A) : Prop :=
  ∃ res pubs logs, ∀ w, c w = (res, emit w pubs logs).

(** The message object that the caller of a dispatch holds afterwards. *)
Definition message_after (msg : TransportUserMessage) (res : result payload)
  : TransportUserMessage :=
  match res with
  | Ok (UserMessage m) => m
  | _ => msg
  end.

Definition is_ok {A} (res : result A) : Prop :=
  match res with
  | Ok _ => True
  | Raise _ => False
  end.

(** Names in ascending order, as [sorted] leaves the items of a dictionary. *)
Definition name_lt (a b : string * string) : Prop :=
  String.compare a.1 b.1 = Lt.

(** ** Sample data *)

Module Sample.

Definition w0 : world := World 0 ∅ [] [].

Definition worker : BaseDispatchWorker :=
  {| _transport_names := ["t1"; "t2"]; _exposed_names := ["app1"; "app2"] |}.

Definition msg : TransportUserMessage :=
  {| transport_name := "t1"; to_addr := "12345"; from_addr := "+2772";
     content := Some "REGISTER please"; message_id := "m1" |}.

Definition event : TransportEvent :=
  {| event_transport_name := "t1"; user_message_id := "m1" |}.

Definition simple : SimpleDispatchRouter.config :=
  {| SimpleDispatchRouter.route_mappings :=
       {[ "t1" := ["app1"; "app2"] ]};
     SimpleDispatchRouter.transport_mappings := None |}.

Definition multiplex_config : FromAddrMultiplexRouter.config :=
  {| FromAddrMultiplexRouter.exposed_names := ["app1"];
     FromAddrMultiplexRouter.fromaddr_mappings := {[ "+2772" := "t2" ]} |}.

Definition multiplex : FromAddrMultiplexRouter.t :=
  {| FromAddrMultiplexRouter.cfg := multiplex_config;
     FromAddrMultiplexRouter.exposed_name := "app1" |}.

(** A message from an address that no transport serves. *)
Definition stray : TransportUserMessage :=
  {| transport_name := "app1"; to_addr := "12345"; from_addr := "+99";
     content := None; message_id := "m2" |}.

End Sample.

Module SampleToAddr.

Definition config : ToAddrRouter.config :=
  {| ToAddrRouter.toaddr_mappings := {[ "app1" := "^123"; "app2" := "^999" ]} |}.

(** The router that [setup_routing] builds from [config]. *)
Definition router : @ToAddrRouter.t LiteralRegex.engine :=
  match @ToAddrRouter.setup_routing LiteralRegex.engine config with
  | Ok r => r
  | Raise _ => {| ToAddrRouter.mappings := [] |}
  end.

End SampleToAddr.

Module SampleKeyword.

Definition config : ContentKeywordRouter.config :=
  {| ContentKeywordRouter.cfg_dispatcher_name := "dispatcher";
     ContentKeywordRouter.cfg_rules :=
       Some [Rule (Some "app1") (Some "REGister") None None;
             Rule (Some "app2") (Some "register") None (Some "+27")];
     ContentKeywordRouter.cfg_keyword_mappings := Some {[ "app2" := "Info" ]};
     ContentKeywordRouter.cfg_fallback_application := None;
     ContentKeywordRouter.cfg_transport_mappings := {[ "+2772" := "t1" ]};
     ContentKeywordRouter.cfg_expire_routing_memory := 10 |}.

(** The router that [setup_routing] builds from [config]. *)
Definition router : ContentKeywordRouter.t :=
  {| ContentKeywordRouter.r_prefix := "dispatcher";
     ContentKeywordRouter.rules :=
       [Rule (Some "app1") (Some "register") None None;
        Rule (Some "app2") (Some "register") None (Some "+27");
        Rule (Some "app2") (Some "info") None None];
     ContentKeywordRouter.fallback_application := None;
     ContentKeywordRouter.transport_mappings := {[ "+2772" := "t1" ]};
     ContentKeywordRouter.expire_routing_timeout := 10 |}.

(** A configuration whose second rule has no keyword. *)
Definition broken : ContentKeywordRouter.config :=
  {| ContentKeywordRouter.cfg_dispatcher_name := "dispatcher";
     ContentKeywordRouter.cfg_rules :=
       Some [Rule (Some "app1") (Some "register") None None;
             Rule (Some "app2") None None None];
     ContentKeywordRouter.cfg_keyword_mappings := None;
     ContentKeywordRouter.cfg_fallback_application := None;
     ContentKeywordRouter.cfg_transport_mappings := ∅;
     ContentKeywordRouter.cfg_expire_routing_memory := 10 |}.

(** A multiplexer configured with two exposed names. *)
Definition two_names : FromAddrMultiplexRouter.config :=
  {| FromAddrMultiplexRouter.exposed_names := ["app1"; "app2"];
     FromAddrMultiplexRouter.fromaddr_mappings := ∅ |}.

End SampleKeyword.

Module SampleGrouping.

Definition config : UserGroupingRouter.config :=
  {| UserGroupingRouter.dispatcher_name := "dispatcher";
     UserGroupingRouter.group_mappings := {[ "group2" := "app2"; "group1" := "app1" ]} |}.

Definition router : UserGroupingRouter.t := UserGroupingRouter.setup_routing config.

(** A configuration with a group whose name is the empty string. *)
Definition empty_name : UserGroupingRouter.config :=
  {| UserGroupingRouter.dispatcher_name := "dispatcher";
     UserGroupingRouter.group_mappings := {[ EmptyString := "app1"; "b" := "app2" ]} |}.

Definition empty_name_router : UserGroupingRouter.t :=
  UserGroupingRouter.setup_routing empty_name.

(** A store in which the user [u1] has been put into [group2]. *)
Definition returning_user : world :=
  stored Sample.w0 (UserGroupingRouter.get_user_key router "u1") "group2".

End SampleGrouping.

Module SampleCorrelation.

(** A reply sent by the application [app1] to the user [+2772], which
    [transport_mappings] gives to the transport [t1]. *)
Definition reply : TransportUserMessage :=
  {| transport_name := "app1"; to_addr := "+2772"; from_addr := "+2772";
     content := Some "thanks"; message_id := "m1" |}.

(** The same reply, sent by [app1], with the name of another exposed app in
    its [transport_name] field. *)
Definition misnamed : TransportUserMessage :=
  {| transport_name := "app2"; to_addr := "+2772"; from_addr := "+2772";
     content := Some "thanks"; message_id := "m1" |}.

End SampleCorrelation.

Module SampleRoutes.

(** A table that lists an app, [ghost], which the worker does not expose,
    and that sends outbound messages of [t1] through [t2]. *)
Definition remapped : SimpleDispatchRouter.config :=
  {| SimpleDispatchRouter.route_mappings := {[ "t1" := ["app1"; "ghost"; "app2"] ]};
     SimpleDispatchRouter.transport_mappings := Some {[ "t1" := "t2" ]} |}.

Definition bridge : TransportToTransportRouter.config :=
  {| TransportToTransportRouter.route_mappings := {[ "t1" := ["t2"; "t1"] ]} |}.

(** A pattern that the sample engine refuses. *)
Definition bad_pattern : ToAddrRouter.config :=
  {| ToAddrRouter.toaddr_mappings := {[ "app1" := "12(3" ]} |}.

End SampleRoutes.

Module SampleStale.

(** A store in which the user of [Sample.msg] is in a group, [group9],
    that the configuration does not have. *)
Definition stale_user : world :=
  stored Sample.w0
    (UserGroupingRouter.get_user_key SampleGrouping.router (user Sample.msg)) "group9".

(** A grouping router without any group. *)
Definition no_groups : UserGroupingRouter.config :=
  {| UserGroupingRouter.dispatcher_name := "dispatcher";
     UserGroupingRouter.group_mappings := ∅ |}.

End SampleStale.

Module SampleOutbound.

(** A keyword router whose table sends the address [+2772] to a transport,
    [t9], that the worker does not have. *)
Definition dangling : ContentKeywordRouter.t :=
  {| ContentKeywordRouter.r_prefix := "dispatcher";
     ContentKeywordRouter.rules := [];
     ContentKeywordRouter.fallback_application := None;
     ContentKeywordRouter.transport_mappings := {[ "+2772" := "t9" ]};
     ContentKeywordRouter.expire_routing_timeout := 10 |}.

(** A second reply, sent by [app2], with another message id. *)
Definition other_reply : TransportUserMessage :=
  {| transport_name := "app2"; to_addr := "+2772"; from_addr := "+2772";
     content := Some "bye"; message_id := "m2" |}.

(** A store whose entry for the message [m1] names an app, [app9], that
    the worker does not expose. *)
Definition unknown_app : world :=
  stored Sample.w0 (ContentKeywordRouter.get_message_key SampleKeyword.router "m1") "app9".

(** A store whose entry for [m1] names the exposed app [app2]. *)
Definition returned : world :=
  stored Sample.w0 (ContentKeywordRouter.get_message_key SampleKeyword.router "m1") "app2".

(** A store whose entry for [m1] is the empty string. *)
Definition empty_entry : world :=
  stored Sample.w0 (ContentKeywordRouter.get_message_key SampleKeyword.router "m1")
    EmptyString.

(** A rule without the [keyword] key. *)
Definition keyless : rule := Rule (Some "app1") None None None.

(** A configuration with one rule, written in mixed case. *)
Definition mixed_case : ContentKeywordRouter.config :=
  {| ContentKeywordRouter.cfg_dispatcher_name := "dispatcher";
     ContentKeywordRouter.cfg_rules := Some [Rule (Some "app1") (Some "RegIster") None None];
     ContentKeywordRouter.cfg_keyword_mappings := None;
     ContentKeywordRouter.cfg_fallback_application := None;
     ContentKeywordRouter.cfg_transport_mappings := ∅;
     ContentKeywordRouter.cfg_expire_routing_memory := 10 |}.

Definition mixed_case_router : ContentKeywordRouter.t :=
  {| ContentKeywordRouter.r_prefix := "dispatcher";
     ContentKeywordRouter.rules := [Rule (Some "app1") (Some "register") None None];
     ContentKeywordRouter.fallback_application := None;
     ContentKeywordRouter.transport_mappings := ∅;
     ContentKeywordRouter.expire_routing_timeout := 10 |}.

End SampleOutbound.

(** * Properties *)

(** ** Worlds, publishers and loops *)

Lemma publish_all_nil w : publish_all w [] = w.
Proof. destruct w; unfold publish_all; simpl. by rewrite app_nil_r. Qed.

Lemma publish_all_app w l1 l2 :
  publish_all (publish_all w l1) l2 = publish_all w (l1 ++ l2).
Proof. unfold publish_all; simpl. by rewrite app_assoc. Qed.

Lemma publish_message_run p msg w :
  publish_message p msg w = (Ok tt, publish_all w [Publication p msg]).
Proof. reflexivity. Qed.

Lemma publishers_cons suffix x names :
  publishers suffix (x :: names) = <[x := x +:+ suffix]> (publishers suffix names).
Proof. reflexivity. Qed.

Lemma publishers_lookup_in suffix names n :
  n ∈ names → publishers suffix names !! n = Some (n +:+ suffix).
Proof.
  induction names as [|x names IH]; intros Hin.
  - by apply elem_of_nil in Hin.
  - rewrite publishers_cons. destruct (decide (x = n)) as [->|Hne].
    + by rewrite lookup_insert_eq.
    + rewrite lookup_insert_ne by done. apply IH.
      apply elem_of_cons in Hin as [?|?]; [congruence | done].
Qed.

Lemma publishers_lookup_notin suffix names n :
  n ∉ names → publishers suffix names !! n = None.
Proof.
  induction names as [|x names IH]; intros Hin.
  - apply lookup_empty.
  - rewrite publishers_cons. apply not_elem_of_cons in Hin as [Hne Hin].
    rewrite lookup_insert_ne by done. by apply IH.
Qed.

Lemma publishers_lookup_Some suffix names n p :
  publishers suffix names !! n = Some p → n ∈ names ∧ p = n +:+ suffix.
Proof.
  intros Hl. destruct (decide (n ∈ names)) as [Hin|Hin].
  - rewrite publishers_lookup_in in Hl by done. by inversion Hl.
  - rewrite publishers_lookup_notin in Hl by done. discriminate.
Qed.

(** A loop that publishes to every name of a list, all of them known. *)
Lemma for_each_publish suffix known names msg w :
  Forall (λ n, n ∈ known) names →
  for_each names (λ name,
      p <- getitem (publishers suffix known) name ;;
      publish_message p msg) w
  = (Ok tt, publish_all w ((λ n, Publication (n +:+ suffix) msg) <$> names)).
Proof.
  intros Hall. revert w. induction Hall as [|n names Hn _ IH]; intros w; simpl.
  - by rewrite publish_all_nil.
  - unfold bind at 1. unfold bind at 1. unfold getitem.
    rewrite (publishers_lookup_in _ _ _ Hn). simpl.
    rewrite IH. unfold publish_all; simpl. by rewrite <- app_assoc.
Qed.

(** ** SimpleDispatchRouter *)

(** C5. An inbound message whose [transport_name] is a key of
    [route_mappings] is published once for every exposed app listed for
    it, in the order of the list, and nothing else happens; when the
    [transport_name] is not a key, the [KeyError] of the lookup reaches the
    caller and nothing is published. *)
Theorem simple_dispatch_inbound_message_fanout
    (d : BaseDispatchWorker) (cfg : SimpleDispatchRouter.config)
    (msg : TransportUserMessage) (w : world) :
  (∀ names,
     SimpleDispatchRouter.route_mappings cfg !! transport_name msg = Some names →
     Forall (λ n, n ∈ _exposed_names d) names →
     SimpleDispatchRouter.dispatch_inbound_message d cfg msg w =
       (Ok tt, publish_all w
                 ((λ n, Publication (n +:+ ".inbound") (UserMessage msg)) <$> names)))
  ∧ (SimpleDispatchRouter.route_mappings cfg !! transport_name msg = None →
     SimpleDispatchRouter.dispatch_inbound_message d cfg msg w =
       (Raise (KeyError (Some (transport_name msg))), w)).
Proof.
  split.
  - intros names Hlook Hall.
    unfold SimpleDispatchRouter.dispatch_inbound_message, bind at 1, getitem at 1.
    rewrite Hlook. simpl. by apply for_each_publish.
  - intros Hlook.
    unfold SimpleDispatchRouter.dispatch_inbound_message, bind at 1, getitem at 1.
    by rewrite Hlook.
Qed.

Lemma simple_dispatch_inbound_message_fanout_witness :
  SimpleDispatchRouter.dispatch_inbound_message
    Sample.worker Sample.simple Sample.msg Sample.w0 =
  (Ok tt, publish_all Sample.w0
            [Publication "app1.inbound" (UserMessage Sample.msg);
             Publication "app2.inbound" (UserMessage Sample.msg)]).
Proof.
  apply (proj1 (simple_dispatch_inbound_message_fanout
                  Sample.worker Sample.simple Sample.msg Sample.w0)
               ["app1"; "app2"]).
  - reflexivity.
  - repeat constructor.
Defined.

(** ** FromAddrMultiplexRouter *)

(** C4, as stated, fails: an outbound message from an unmapped [from_addr]
    is not logged and dropped, the [KeyError] of the lookup is raised to
    the caller and no diagnostic is written. *)
Lemma multiplex_outbound_unmapped_not_logged :
  FromAddrMultiplexRouter.fromaddr_mappings
    (FromAddrMultiplexRouter.cfg Sample.multiplex) !! from_addr Sample.stray = None
  ∧ ¬ (∃ res w',
         FromAddrMultiplexRouter.dispatch_outbound_message
           Sample.worker Sample.multiplex Sample.stray Sample.w0 = (Ok res, w')
         ∧ published w' = published Sample.w0
         ∧ logged w' ≠ logged Sample.w0).
Proof.
  split; [reflexivity |].
  intros (res & w' & Hrun & _). vm_compute in Hrun. discriminate.
Qed.

(** C4, amended. An outbound message whose [from_addr] is not a key of
    [fromaddr_mappings] makes the dispatch raise the [KeyError] of the
    lookup, with nothing published and nothing logged; when the [from_addr]
    is mapped to one of the worker's transports, the message is published
    once, on that transport, with its [transport_name] rewritten to it. *)
Theorem multiplex_dispatch_outbound_message
    (d : BaseDispatchWorker) (self : FromAddrMultiplexRouter.t)
    (msg : TransportUserMessage) (w : world) :
  (FromAddrMultiplexRouter.fromaddr_mappings (FromAddrMultiplexRouter.cfg self)
     !! from_addr msg = None →
   FromAddrMultiplexRouter.dispatch_outbound_message d self msg w =
     (Raise (KeyError (Some (from_addr msg))), w))
  ∧ (∀ name,
       FromAddrMultiplexRouter.fromaddr_mappings (FromAddrMultiplexRouter.cfg self)
         !! from_addr msg = Some name →
       name ∈ _transport_names d →
       let rewritten := set_transport_name name (UserMessage msg) in
       FromAddrMultiplexRouter.dispatch_outbound_message d self msg w =
         (Ok rewritten,
          publish_all w [Publication (name +:+ ".outbound") rewritten])).
Proof.
  unfold FromAddrMultiplexRouter.dispatch_outbound_message. split.
  - intros Hl. unfold bind at 1, getitem at 1. by rewrite Hl.
  - intros name Hl Hin; cbv zeta. unfold bind at 1, getitem at 1. rewrite Hl.
    simpl. unfold bind at 1, getitem at 1, transport_publisher.
    by rewrite (publishers_lookup_in _ _ _ Hin).
Qed.

Lemma multiplex_dispatch_outbound_message_witness :
  FromAddrMultiplexRouter.dispatch_outbound_message
    Sample.worker Sample.multiplex Sample.stray Sample.w0 =
    (Raise (KeyError (Some "+99")), Sample.w0)
  ∧ FromAddrMultiplexRouter.dispatch_outbound_message
      Sample.worker Sample.multiplex Sample.msg Sample.w0 =
      (Ok (set_transport_name "t2" (UserMessage Sample.msg)),
       publish_all Sample.w0
         [Publication "t2.outbound" (set_transport_name "t2" (UserMessage Sample.msg))]).
Proof.
  split.
  - apply (proj1 (multiplex_dispatch_outbound_message
                    Sample.worker Sample.multiplex Sample.stray Sample.w0)).
    reflexivity.
  - apply (proj2 (multiplex_dispatch_outbound_message
                    Sample.worker Sample.multiplex Sample.msg Sample.w0) "t2").
    + reflexivity.
    + repeat constructor.
Defined.

(** ** ToAddrRouter *)

Section ToAddrRouterProperties.
Context `{Regex}.

Lemma compile_all_names items l :
  ToAddrRouter.compile_all items = Ok l → l.*1 = items.*1.
Proof.
  revert l. induction items as [|[name pat] items IH]; intros l Hc; simpl in Hc.
  - by inversion Hc.
  - destruct (re_compile pat); [|discriminate].
    destruct (ToAddrRouter.compile_all items) as [l'|]; [|discriminate].
    inversion Hc; subst. simpl. f_equal. by apply IH.
Qed.

Lemma compile_all_elem items l app regex :
  ToAddrRouter.compile_all items = Ok l →
  (app, regex) ∈ l ↔ ∃ pat, (app, pat) ∈ items ∧ re_compile pat = Some regex.
Proof.
  revert l. induction items as [|[name pat] items IH]; intros l Hc; simpl in Hc.
  - inversion Hc; subst. split.
    + intros Hin. by apply elem_of_nil in Hin.
    + intros (p & Hin & _). by apply elem_of_nil in Hin.
  - destruct (re_compile pat) as [r|] eqn:Hpat; [|discriminate].
    destruct (ToAddrRouter.compile_all items) as [l'|]; [|discriminate].
    inversion Hc; subst. rewrite elem_of_cons. rewrite (IH l' eq_refl). split.
    + intros [Heq|(p & Hin & Hp)].
      * inversion Heq; subst. exists pat. split; [left | done].
      * exists p. split; [by right | done].
    + intros (p & Hin & Hp). apply elem_of_cons in Hin as [Heq|Hin].
      * inversion Heq; subst. left. congruence.
      * right. by exists p.
Qed.

Lemma toaddr_for_each known (l : list (string * pattern)) toaddr msg w :
  Forall (λ m, m.1 ∈ known) l →
  for_each l (λ '(name, regex),
      if re_match regex toaddr then
        p <- getitem (publishers ".inbound" known) name ;;
        publish_message p msg
      else ret tt) w
  = (Ok tt,
     publish_all w
       ((λ app, Publication (app +:+ ".inbound") msg)
          <$> (List.filter (λ m, re_match m.2 toaddr) l).*1)).
Proof.
  intros Hall. revert w.
  induction Hall as [|[name regex] l Hn _ IH]; intros w; simpl.
  - by rewrite publish_all_nil.
  - unfold bind at 1. destruct (re_match regex toaddr); simpl.
    + unfold bind at 1, getitem. rewrite (publishers_lookup_in _ _ _ Hn). simpl.
      rewrite IH. unfold publish_all; simpl. by rewrite <- app_assoc.
    + apply IH.
Qed.

(** C6. An inbound message is published once to every app of
    [toaddr_mappings] whose compiled pattern matches the [to_addr] of the
    message with [regex.match], that is from position zero, and to no
    other queue; nothing is logged, so a message matched by no pattern
    leaves the world as it was. *)
Theorem toaddr_dispatch_inbound_message
    (d : BaseDispatchWorker) (cfg : ToAddrRouter.config) (self : ToAddrRouter.t)
    (msg : TransportUserMessage) (w : world) :
  ToAddrRouter.setup_routing cfg = Ok self →
  (∀ app, is_Some (ToAddrRouter.toaddr_mappings cfg !! app) → app ∈ _exposed_names d) →
  ∃ apps,
    ToAddrRouter.dispatch_inbound_message d self msg w =
      (Ok tt, publish_all w
                ((λ app, Publication (app +:+ ".inbound") (UserMessage msg)) <$> apps))
    ∧ NoDup apps
    ∧ (∀ app, app ∈ apps ↔
         ∃ pat regex, ToAddrRouter.toaddr_mappings cfg !! app = Some pat
                      ∧ re_compile pat = Some regex
                      ∧ re_match regex (to_addr msg) = true)
    ∧ (apps = [] → ToAddrRouter.dispatch_inbound_message d self msg w = (Ok tt, w)).
Proof.
  intros Hsetup Hexposed. unfold ToAddrRouter.setup_routing in Hsetup.
  destruct (ToAddrRouter.compile_all (map_to_list (ToAddrRouter.toaddr_mappings cfg)))
    as [l|] eqn:Hc; [|discriminate].
  inversion Hsetup; subst; clear Hsetup.
  assert (Hrun : ToAddrRouter.dispatch_inbound_message d {| ToAddrRouter.mappings := l |} msg w =
    (Ok tt, publish_all w
       ((λ app, Publication (app +:+ ".inbound") (UserMessage msg))
          <$> (List.filter (λ m, re_match m.2 (to_addr msg)) l).*1))).
  { unfold ToAddrRouter.dispatch_inbound_message. simpl.
    apply toaddr_for_each. apply Forall_forall. intros [name regex] Hin. simpl.
    apply Hexposed. apply (compile_all_elem _ _ _ _ Hc) in Hin as (pat & Hin & _).
    apply elem_of_map_to_list in Hin. by exists pat. }
  exists (List.filter (λ m, re_match m.2 (to_addr msg)) l).*1.
  split; [exact Hrun | split; [| split]].
  - assert (Hnd : NoDup l.*1).
    { rewrite (compile_all_names _ _ Hc). apply NoDup_fst_map_to_list. }
    clear Hc Hrun. induction l as [|[name regex] l IH]; simpl; [constructor|].
    inversion Hnd as [|? ? Hnotin Hnd']; subst.
    destruct (re_match regex (to_addr msg)); simpl; [|by apply IH].
    constructor; [|by apply IH].
    intros Hin. apply Hnotin. apply list_elem_of_fmap in Hin as ([n r] & -> & Hin).
    apply list_elem_of_In, filter_In in Hin as [Hin _].
    apply list_elem_of_fmap. exists (n, r). split; [done | by apply list_elem_of_In].
  - intros app. rewrite list_elem_of_fmap. split.
    + intros ([n regex] & -> & Hin). simpl.
      apply list_elem_of_In, filter_In in Hin as [Hin Hm]. simpl in Hm.
      apply list_elem_of_In, (compile_all_elem _ _ _ _ Hc) in Hin as (pat & Hin & Hp).
      apply elem_of_map_to_list in Hin. by exists pat, regex.
    + intros (pat & regex & Hl & Hp & Hm). exists (app, regex). split; [done|].
      apply list_elem_of_In, filter_In. split; [|done].
      apply list_elem_of_In, (compile_all_elem _ _ _ _ Hc). exists pat.
      split; [by apply elem_of_map_to_list | done].
  - intros Hnil. rewrite Hrun, Hnil. simpl. by rewrite publish_all_nil.
Qed.

End ToAddrRouterProperties.

Lemma toaddr_dispatch_inbound_message_witness :
  ∃ apps,
    @ToAddrRouter.dispatch_inbound_message LiteralRegex.engine
      Sample.worker SampleToAddr.router Sample.msg Sample.w0 =
      (Ok tt, publish_all Sample.w0
                ((λ app, Publication (app +:+ ".inbound") (UserMessage Sample.msg)) <$> apps))
    ∧ NoDup apps
    ∧ (∀ app, app ∈ apps ↔
         ∃ pat regex,
           ToAddrRouter.toaddr_mappings SampleToAddr.config !! app = Some pat
           ∧ @re_compile LiteralRegex.engine pat = Some regex
           ∧ @re_match LiteralRegex.engine regex (to_addr Sample.msg) = true)
    ∧ (apps = [] →
       @ToAddrRouter.dispatch_inbound_message LiteralRegex.engine
         Sample.worker SampleToAddr.router Sample.msg Sample.w0 = (Ok tt, Sample.w0)).
Proof.
  apply (@toaddr_dispatch_inbound_message LiteralRegex.engine
           Sample.worker SampleToAddr.config SampleToAddr.router Sample.msg Sample.w0).
  - reflexivity.
  - intros app [pat Hl]. unfold SampleToAddr.config, ToAddrRouter.toaddr_mappings in Hl.
    destruct (decide (app = "app1")) as [->|Hn1]; [repeat constructor|].
    destruct (decide (app = "app2")) as [->|Hn2]; [repeat constructor|].
    rewrite lookup_insert_ne in Hl by done.
    rewrite lookup_singleton_ne in Hl by done. discriminate.
Defined.

(** ** Strings *)

Lemma lower_ascii_idemp c : lower_ascii (lower_ascii c) = lower_ascii c.
Proof. destruct c as [[] [] [] [] [] [] [] []]; reflexivity. Qed.

Lemma lower_idemp s : lower (lower s) = lower s.
Proof. induction s as [|c s IH]; simpl; [done|]. by rewrite lower_ascii_idemp, IH. Qed.

Lemma startswith_spec s p :
  startswith s p = true ↔ ∃ rest, s = p +:+ rest.
Proof.
  revert s. induction p as [|a p IH]; intros s.
  - destruct s; simpl; (split; [intros _; by eexists | done]).
  - destruct s as [|b s]; simpl.
    + split; [discriminate | intros [rest Hr]; discriminate].
    + destruct (Ascii.eqb a b) eqn:Hab.
      * apply Ascii.eqb_eq in Hab as ->. rewrite IH. split.
        -- intros [rest ->]. by exists rest.
        -- intros [rest Hr]. inversion Hr. by exists rest.
      * apply Ascii.eqb_neq in Hab. split; [discriminate|].
        intros [rest Hr]. inversion Hr. congruence.
Qed.

(** ** ContentKeywordRouter: setup *)

Lemma load_rules_complete l :
  Forall (λ r, is_Some (rule_app r) ∧ is_Some (rule_keyword r)) l →
  ContentKeywordRouter.load_rules l = Ok (lower_keyword <$> l).
Proof.
  induction 1 as [|r l [[a Ha] [k Hk]] _ IH]; simpl; [done|].
  rewrite Hk, Ha, IH. unfold lower_keyword. by rewrite Hk, Ha.
Qed.

Lemma load_rules_incomplete l :
  Exists lacks_app_or_keyword l →
  ∃ r, r ∈ l ∧ lacks_app_or_keyword r
       ∧ ContentKeywordRouter.load_rules l =
           Raise (ConfigError (RuleMustContainAppAndKeyword r)).
Proof.
  induction l as [|r l IH]; intros Hex; [by inversion Hex|]. simpl.
  destruct (rule_keyword r) as [k|] eqn:Hk.
  - destruct (rule_app r) as [a|] eqn:Ha.
    + inversion Hex as [? ? [Hbad|Hbad]|? ? Hex']; subst; [congruence..|].
      destruct (IH Hex') as (r' & Hin & Hbad & ->).
      exists r'. split; [by right | done].
    + exists r. split; [left | split; [by left | done]].
  - exists r. split; [left | split; [by right | done]].
Qed.

Lemma load_rules_Ok l loaded :
  ContentKeywordRouter.load_rules l = Ok loaded →
  Forall (λ r, is_Some (rule_app r) ∧ is_Some (rule_keyword r)) l.
Proof.
  revert loaded. induction l as [|r l IH]; intros loaded Hl; [constructor|].
  simpl in Hl. destruct (rule_keyword r) eqn:Hk; [|discriminate].
  destruct (rule_app r) eqn:Ha; [|discriminate].
  destruct (ContentKeywordRouter.load_rules l) eqn:Hrest; [|discriminate].
  constructor; [by rewrite Hk, Ha | by eapply IH].
Qed.

Lemma setup_routing_rules c self :
  ContentKeywordRouter.setup_routing c = Ok self →
  ContentKeywordRouter.rules self =
    ((lower_keyword <$> default [] (ContentKeywordRouter.cfg_rules c))
       ++ ContentKeywordRouter.mapping_rules
            (default ∅ (ContentKeywordRouter.cfg_keyword_mappings c)))%list
  ∧ Forall loaded_rule (ContentKeywordRouter.rules self).
Proof.
  unfold ContentKeywordRouter.setup_routing. intros Hs.
  destruct (ContentKeywordRouter.load_rules _) as [explicit|] eqn:Hl; [|discriminate].
  inversion Hs; subst; clear Hs. simpl.
  pose proof (load_rules_Ok _ _ Hl) as Hall.
  rewrite (load_rules_complete _ Hall) in Hl. inversion Hl; subst; clear Hl.
  split; [done|]. apply Forall_app. split.
  - apply Forall_fmap. eapply Forall_impl; [exact Hall|].
    intros r [Ha [k Hk]]. split; [done|]. simpl. rewrite Hk. simpl.
    exists (lower k). split; [done | apply lower_idemp].
  - unfold ContentKeywordRouter.mapping_rules. apply Forall_fmap, Forall_forall.
    intros [name keyword] _. split; [by eexists|]. simpl.
    exists (lower keyword). split; [done | apply lower_idemp].
Qed.



(** ** ContentKeywordRouter: inbound messages *)

Lemma rule_matches_spec keyword msg r :
  rule_matches keyword msg r = true ↔
    rule_keyword r = Some keyword
    ∧ (∀ a, rule_to_addr r = Some a → to_addr msg = a)
    ∧ (∀ p, rule_prefix r = Some p → ∃ rest, from_addr msg = p +:+ rest).
Proof.
  unfold rule_matches. rewrite !andb_true_iff. split.
  - intros [[Hk Ha] Hp]. split; [|split].
    + destruct (rule_keyword r); [|discriminate]. by apply String.eqb_eq in Hk as ->.
    + intros a Hr. rewrite Hr in Ha. by apply String.eqb_eq.
    + intros p Hr. rewrite Hr in Hp. by apply startswith_spec.
  - intros (Hk & Ha & Hp). rewrite Hk. split; [split|].
    + apply String.eqb_refl.
    + destruct (rule_to_addr r) as [a|]; [|done]. apply String.eqb_eq. by apply Ha.
    + destruct (rule_prefix r) as [p|]; [|done]. apply startswith_spec. by apply Hp.
Qed.

Lemma is_msg_matching_routing_rules_run keyword msg r k w :
  rule_keyword r = Some k →
  ContentKeywordRouter.is_msg_matching_routing_rules keyword msg r w =
    (Ok (rule_matches keyword msg r), w).
Proof.
  intros Hk. unfold ContentKeywordRouter.is_msg_matching_routing_rules, rule_matches.
  rewrite Hk. unfold bind, ret. cbn [ContentKeywordRouter.rule_getitem forallb id].
  do 2 f_equal. by rewrite andb_true_r, andb_assoc.
Qed.

Lemma dispatch_rules_run d keyword msg l matched w :
  Forall (routable d) l →
  ContentKeywordRouter.dispatch_rules d keyword msg l matched w =
    (Ok (matched || existsb (rule_matches keyword msg) l),
     publish_all w
       ((λ app, Publication (app +:+ ".inbound") (UserMessage msg))
          <$> omap rule_app (List.filter (rule_matches keyword msg) l))).
Proof.
  intros Hall. revert matched w.
  induction Hall as [|r l [[k Hk] (app & Happ & Hin)] _ IH]; intros matched w; simpl.
  - by rewrite orb_false_r, publish_all_nil.
  - unfold bind at 1. rewrite (is_msg_matching_routing_rules_run _ _ _ _ _ Hk).
    destruct (rule_matches keyword msg r); simpl.
    + rewrite Happ. simpl. unfold bind at 1. simpl.
      unfold bind at 1, ContentKeywordRouter.publish_exposed_inbound, bind at 1, getitem.
      unfold exposed_publisher. rewrite (publishers_lookup_in _ _ _ Hin). simpl.
      rewrite IH. rewrite orb_true_r. simpl.
      unfold publish_all; simpl. by rewrite <- app_assoc.
    + by rewrite IH.
Qed.

Section KeywordInbound.
Context `{VumiUtils}.


End KeywordInbound.


(** ** The store *)

Lemma Z_of_to_string z : Z_of_string (Z_to_string z) = Some z.
Proof.
  unfold Z_of_string, Z_to_string. rewrite NilZero.isi.
  - simpl. by rewrite DecimalZ.of_to.
  - destruct z; simpl; [discriminate | |discriminate].
    intros Heq. inversion Heq as [Hp]. by apply DecimalPos.Unsigned.to_uint_nonnil in Hp.
  - destruct z; simpl; [discriminate | discriminate |].
    intros Heq. inversion Heq as [Hp]. by apply DecimalPos.Unsigned.to_uint_nonnil in Hp.
Qed.

Lemma lookup_live_insert w db k e k' :
  lookup_live (with_db w (<[k := e]> db)) k' =
    if decide (k = k') then (if live (clock w) e then Some (value e) else None)
    else lookup_live (with_db w db) k'.
Proof.
  unfold lookup_live, with_db; simpl. destruct (decide (k = k')) as [->|Hne].
  - by rewrite lookup_insert_eq.
  - by rewrite lookup_insert_ne.
Qed.

Lemma with_db_id w : with_db w (redis_db w) = w.
Proof. by destruct w. Qed.

Lemma r_get_run key w : r_get key w = (Ok (lookup_live w key), w).
Proof. reflexivity. Qed.

Lemma r_incr_run key c w :
  counter_value w key = Some c →
  r_incr key w = (Ok (c + 1), incremented w key c).
Proof.
  unfold counter_value, lookup_live, r_incr, incremented.
  destruct (redis_db w !! key) as [e|]; [destruct (live (clock w) e)|].
  - intros Hc. by rewrite Hc.
  - intros [= <-]. done.
  - intros [= <-]. done.
Qed.

Lemma r_incr_unreadable key w :
  counter_value w key = None → r_incr key w = (Raise ResponseError, w).
Proof.
  unfold counter_value, lookup_live, r_incr.
  destruct (redis_db w !! key) as [e|]; [destruct (live (clock w) e)|]; try done.
  intros Hc. by rewrite Hc.
Qed.

Lemma incremented_lookup_live w key c k :
  lookup_live (incremented w key c) k =
    if decide (key = k) then Some (Z_to_string (c + 1)) else lookup_live w k.
Proof.
  unfold incremented. rewrite lookup_live_insert, with_db_id.
  destruct (decide (key = k)) as [_|_]; [|done].
  unfold live; simpl. destruct (redis_db w !! key) as [e|]; [|done].
  unfold live. destruct (expires_at e) as [t|]; [|done].
  by destruct (clock w <? t)%Z eqn:Ht; simpl; rewrite ?Ht.
Qed.

Lemma incremented_counter_value w key c :
  counter_value (incremented w key c) key = Some (c + 1).
Proof.
  unfold counter_value. rewrite incremented_lookup_live.
  rewrite decide_True by done. apply Z_of_to_string.
Qed.

Lemma r_set_run key val w : r_set key val w = (Ok tt, stored w key val).
Proof. reflexivity. Qed.

Lemma stored_lookup_live w key val k :
  lookup_live (stored w key val) k =
    if decide (key = k) then Some val else lookup_live w k.
Proof.
  unfold stored. rewrite lookup_live_insert, with_db_id.
  by destruct (decide (key = k)).
Qed.

(** ** Sorting the groups *)

Lemma insert_sorted_perm x l : insert_sorted x l ≡ₚ x :: l.
Proof.
  induction l as [|y l IH]; simpl; [done|].
  destruct (item_leb x y); [done|]. rewrite IH. apply Permutation_swap.
Qed.

Lemma sorted_perm l : sorted l ≡ₚ l.
Proof.
  induction l as [|x l IH]; simpl; [done|].
  rewrite insert_sorted_perm. by rewrite IH.
Qed.

Lemma sorted_length l : length (sorted l) = length l.
Proof. by rewrite sorted_perm. Qed.

(** ** Keys of the store *)

Lemma user_key_inj self u u' :
  UserGroupingRouter.get_user_key self u = UserGroupingRouter.get_user_key self u' →
  u = u'.
Proof.
  unfold UserGroupingRouter.get_user_key, UserGroupingRouter.r_key. simpl.
  intros Heq. apply String.app_inj in Heq. by inversion Heq.
Qed.

Lemma user_key_not_counter_key self u :
  UserGroupingRouter.r_key self ["round-robin"] ≠ UserGroupingRouter.get_user_key self u.
Proof.
  unfold UserGroupingRouter.get_user_key, UserGroupingRouter.r_key. simpl.
  intros Heq. apply String.app_inj in Heq. by inversion Heq.
Qed.

(** ** UserGroupingRouter *)

Section UserGrouping.
Variable c : UserGroupingRouter.config.
Let self := UserGroupingRouter.setup_routing c.
Let counter_key := UserGroupingRouter.r_key self ["round-robin"].

Lemma group_at_some counter :
  UserGroupingRouter.group_mappings c ≠ ∅ →
  ∃ g app, sorted (map_to_list (UserGroupingRouter.groups self))
             !! Z.to_nat (counter `mod` UserGroupingRouter.nr_of_groups self)
           = Some (g, app)
           ∧ group_at self counter = Some g
           ∧ UserGroupingRouter.group_mappings c !! g = Some app.
Proof.
  intros Hne. unfold group_at. simpl.
  assert (Hsize : (0 < size (UserGroupingRouter.group_mappings c))%nat).
  { destruct (size (UserGroupingRouter.group_mappings c)) eqn:Hs; [|lia].
    by apply map_size_empty_iff in Hs. }
  destruct (sorted (map_to_list (UserGroupingRouter.group_mappings c))
              !! Z.to_nat (counter `mod` Z.of_nat (size (UserGroupingRouter.group_mappings c))))
    as [[g app]|] eqn:Hl.
  - exists g, app. split; [done | split; [done|]].
    apply list_elem_of_lookup_2 in Hl. rewrite sorted_perm in Hl.
    by apply elem_of_map_to_list in Hl.
  - exfalso. apply lookup_ge_None in Hl.
    rewrite sorted_length, length_map_to_list in Hl.
    pose proof (Z.mod_pos_bound counter (Z.of_nat (size (UserGroupingRouter.group_mappings c)))).
    lia.
Qed.

Lemma get_next_group_run counter w :
  UserGroupingRouter.group_mappings c ≠ ∅ →
  counter_value w counter_key = Some counter →
  ∃ g app, UserGroupingRouter.get_next_group self w =
             (Ok (g, app), incremented w counter_key counter)
           ∧ group_at self counter = Some g
           ∧ UserGroupingRouter.group_mappings c !! g = Some app.
Proof.
  intros Hne Hc. destruct (group_at_some counter Hne) as (g & app & Hl & Hg & Hin).
  exists g, app. split; [|done].
  unfold UserGroupingRouter.get_next_group, UserGroupingRouter.get_counter.
  unfold bind. fold self counter_key. rewrite (r_incr_run _ _ _ Hc). simpl.
  replace (counter + 1 - 1) with counter by lia.
  destruct (Z.of_nat (size (UserGroupingRouter.group_mappings c)) =? 0)%Z eqn:Hz.
  - apply Z.eqb_eq in Hz. exfalso.
    assert (size (UserGroupingRouter.group_mappings c) = 0%nat) as Hs by lia.
    by apply map_size_empty_iff in Hs.
  - simpl in Hl. by rewrite Hl.
Qed.

Lemma get_group_for_user_assigns user_id counter w :
  UserGroupingRouter.group_mappings c ≠ ∅ →
  lookup_live w (UserGroupingRouter.get_user_key self user_id) = None
  ∨ lookup_live w (UserGroupingRouter.get_user_key self user_id) = Some EmptyString →
  counter_value w counter_key = Some counter →
  ∃ g, UserGroupingRouter.get_group_for_user self user_id w =
         (Ok g, stored (incremented w counter_key counter)
                  (UserGroupingRouter.get_user_key self user_id) g)
       ∧ group_at self counter = Some g
       ∧ is_Some (UserGroupingRouter.group_mappings c !! g).
Proof.
  intros Hne Habsent Hc.
  destruct (get_next_group_run counter w Hne Hc) as (g & app & Hrun & Hg & Hin).
  exists g. split; [|split; [done | by eexists]].
  unfold UserGroupingRouter.get_group_for_user. unfold bind at 1. rewrite r_get_run.
  assert (Hgoal : (next <- UserGroupingRouter.get_next_group self ;;
                   let group := next.1 in
                   r_set (UserGroupingRouter.get_user_key self user_id) group ;;;
                   ret group)%dispatch w
                  = (Ok g, stored (incremented w counter_key counter)
                             (UserGroupingRouter.get_user_key self user_id) g)).
  { unfold bind at 1. rewrite Hrun. reflexivity. }
  by destruct Habsent as [-> | ->].
Qed.

Lemma get_group_for_user_reads user_id g w :
  lookup_live w (UserGroupingRouter.get_user_key self user_id) = Some g →
  g ≠ EmptyString →
  UserGroupingRouter.get_group_for_user self user_id w = (Ok g, w).
Proof.
  intros Hl Hg. unfold UserGroupingRouter.get_group_for_user, bind.
  rewrite r_get_run, Hl. by destruct g.
Qed.

Lemma stored_incremented_counter_value user_id g counter w :
  counter_value (stored (incremented w counter_key counter)
                   (UserGroupingRouter.get_user_key self user_id) g) counter_key
  = Some (counter + 1).
Proof.
  unfold counter_value. rewrite stored_lookup_live.
  rewrite decide_False by (intros Heq; symmetry in Heq; by apply user_key_not_counter_key in Heq).
  rewrite incremented_lookup_live, decide_True by done. apply Z_of_to_string.
Qed.

Lemma stored_incremented_other_user user_id g counter w u :
  u ≠ user_id →
  lookup_live (stored (incremented w counter_key counter)
                 (UserGroupingRouter.get_user_key self user_id) g)
    (UserGroupingRouter.get_user_key self u)
  = lookup_live w (UserGroupingRouter.get_user_key self u).
Proof.
  intros Hne. rewrite stored_lookup_live.
  rewrite decide_False by (intros Heq; apply user_key_inj in Heq; congruence).
  rewrite incremented_lookup_live. rewrite decide_False; [done|].
  apply user_key_not_counter_key.
Qed.

Lemma get_groups_for_users_round_robin users counter w :
  UserGroupingRouter.group_mappings c ≠ ∅ →
  NoDup users →
  Forall (λ u, lookup_live w (UserGroupingRouter.get_user_key self u) = None) users →
  counter_value w counter_key = Some counter →
  ∃ gs w', get_groups_for_users self users w = (Ok gs, w')
           ∧ Some <$> gs =
               (λ i, group_at self (counter + Z.of_nat i)) <$> seq 0 (length users).
Proof.
  intros Hne. revert counter w.
  induction users as [|u users IH]; intros counter w Hnd Habsent Hc.
  - exists [], w. done.
  - inversion Hnd as [|? ? Hnotin Hnd']; subst.
    inversion Habsent as [|? ? Hu Habsent']; subst.
    destruct (get_group_for_user_assigns u counter w Hne (or_introl Hu) Hc)
      as (g & Hrun & Hg & _).
    destruct (IH (counter + 1)
                (stored (incremented w counter_key counter)
                   (UserGroupingRouter.get_user_key self u) g) Hnd')
      as (gs & w' & Hrest & Hgs).
    + apply Forall_forall. intros u' Hin.
      rewrite stored_incremented_other_user by (intros ->; done).
      by apply (proj1 (Forall_forall _ _) Habsent').
    + apply stored_incremented_counter_value.
    + exists (g :: gs), w'. split.
      * simpl. unfold bind at 1. rewrite Hrun. unfold bind at 1. by rewrite Hrest.
      * cbn [length seq]. rewrite !fmap_cons. change (Z.of_nat 0) with 0%Z.
        rewrite Z.add_0_r, Hg. f_equal. rewrite Hgs.
        rewrite <- fmap_S_seq, <- list_fmap_compose. apply list_fmap_ext.
        intros i x _. simpl. f_equal. lia.
Qed.


End UserGrouping.



(** ** ContentKeywordRouter: events and outbound messages *)

Lemma append_length s t :
  String.length (s +:+ t) = (String.length s + String.length t)%nat.
Proof. induction s as [|a s IH]; simpl; [done | by rewrite IH]. Qed.

Lemma append_inj_r s1 s2 t : s1 +:+ t = s2 +:+ t → s1 = s2.
Proof.
  revert s2. induction s1 as [|a s1 IH]; intros [|b s2] Heq;
    change (String ?x ?y +:+ t) with (String x (y +:+ t)) in Heq;
    change (EmptyString +:+ t) with t in Heq.
  - done.
  - apply (f_equal String.length) in Heq. simpl in Heq.
    rewrite append_length in Heq. lia.
  - apply (f_equal String.length) in Heq. simpl in Heq.
    rewrite append_length in Heq. lia.
  - inversion Heq; subst. f_equal. by apply IH.
Qed.

Lemma keyword_event_no_entry d self msg w :
  lookup_live w (ContentKeywordRouter.get_message_key self (user_message_id msg)) = None →
  ContentKeywordRouter.dispatch_inbound_event d self msg w =
    (Ok tt, log_all w [NoReturnRoute (user_message_id msg); NoPublishingRoute None]).
Proof.
  intros Hl. unfold ContentKeywordRouter.dispatch_inbound_event.
  unfold bind at 1. rewrite r_get_run, Hl. unfold bind at 1. simpl.
  unfold try_except, ContentKeywordRouter.publish_exposed_event, bind, getitem_opt.
  simpl. unfold log_error, log_all; simpl. by rewrite <- app_assoc.
Qed.

Lemma keyword_event_entry d self msg name w :
  lookup_live w (ContentKeywordRouter.get_message_key self (user_message_id msg))
    = Some name →
  name ≠ EmptyString →
  ContentKeywordRouter.dispatch_inbound_event d self msg w =
    (Ok tt,
     if decide (name ∈ _exposed_names d)
     then publish_all w [Publication (name +:+ ".event") (Event msg)]
     else log_all w [NoPublishingRoute (Some name)]).
Proof.
  intros Hl Hne. unfold ContentKeywordRouter.dispatch_inbound_event.
  unfold bind at 1. rewrite r_get_run, Hl.
  destruct name as [|a name]; [done|]. unfold bind at 1. simpl.
  unfold try_except, ContentKeywordRouter.publish_exposed_event, bind, getitem_opt, getitem.
  unfold exposed_event_publisher. destruct (decide (String a name ∈ _exposed_names d)) as [Hin|Hin].
  - by rewrite (publishers_lookup_in _ _ _ Hin).
  - by rewrite (publishers_lookup_notin _ _ _ Hin).
Qed.

Lemma keyword_event_empty_entry d self msg w :
  lookup_live w (ContentKeywordRouter.get_message_key self (user_message_id msg))
    = Some EmptyString →
  ContentKeywordRouter.dispatch_inbound_event d self msg w =
    (Ok tt,
     if decide (EmptyString ∈ _exposed_names d)
     then publish_all (log_all w [NoReturnRoute (user_message_id msg)])
            [Publication ".event" (Event msg)]
     else log_all w [NoReturnRoute (user_message_id msg);
                     NoPublishingRoute (Some EmptyString)]).
Proof.
  intros Hl. unfold ContentKeywordRouter.dispatch_inbound_event.
  unfold bind at 1. rewrite r_get_run, Hl. unfold bind at 1. simpl.
  unfold try_except, ContentKeywordRouter.publish_exposed_event, bind, getitem_opt, getitem.
  unfold exposed_event_publisher. destruct (decide (EmptyString ∈ _exposed_names d)) as [Hin|Hin].
  - by rewrite (publishers_lookup_in _ _ _ Hin).
  - rewrite (publishers_lookup_notin _ _ _ Hin). simpl.
    unfold log_error, log_all; simpl. by rewrite <- app_assoc.
Qed.

(** C9. [dispatch_inbound_event] returns normally in every world; when the
    store has no entry for the [user_message_id] of the event, nothing is
    published and two diagnostics are logged: the missing return route and
    the failed publication to the name [None]. *)
Theorem keyword_dispatch_inbound_event_never_raises
    (d : BaseDispatchWorker) (self : ContentKeywordRouter.t)
    (msg : TransportEvent) (w : world) :
  (∃ w', ContentKeywordRouter.dispatch_inbound_event d self msg w = (Ok tt, w'))
  ∧ (lookup_live w (ContentKeywordRouter.get_message_key self (user_message_id msg))
       = None →
     ContentKeywordRouter.dispatch_inbound_event d self msg w =
       (Ok tt, log_all w [NoReturnRoute (user_message_id msg); NoPublishingRoute None])).
Proof.
  split; [|apply keyword_event_no_entry].
  destruct (lookup_live w (ContentKeywordRouter.get_message_key self (user_message_id msg)))
    as [[|a name]|] eqn:Hl.
  - rewrite (keyword_event_empty_entry _ _ _ _ Hl). by eexists.
  - rewrite (keyword_event_entry _ _ _ _ _ Hl) by done. by eexists.
  - rewrite (keyword_event_no_entry _ _ _ _ Hl). by eexists.
Qed.

Lemma keyword_dispatch_inbound_event_never_raises_witness :
  ContentKeywordRouter.dispatch_inbound_event
    Sample.worker SampleKeyword.router Sample.event Sample.w0 =
    (Ok tt, log_all Sample.w0 [NoReturnRoute "m1"; NoPublishingRoute None]).
Proof.
  apply (proj2 (keyword_dispatch_inbound_event_never_raises
                  Sample.worker SampleKeyword.router Sample.event Sample.w0)).
  reflexivity.
Defined.

Lemma keyword_outbound_run d self msg transport w :
  ContentKeywordRouter.transport_mappings self !! from_addr msg = Some transport →
  transport ∈ _transport_names d →
  ContentKeywordRouter.dispatch_outbound_message d self msg w =
    (Ok tt, correlated self transport msg w).
Proof.
  intros Hl Hin. unfold ContentKeywordRouter.dispatch_outbound_message. rewrite Hl.
  unfold bind at 1, ContentKeywordRouter.publish_transport, bind at 1, getitem.
  unfold transport_publisher. rewrite (publishers_lookup_in _ _ _ Hin). simpl.
  unfold bind at 1. rewrite r_set_run. unfold bind at 1, r_expire.
  unfold stored at 1 2. simpl. rewrite lookup_insert_eq. simpl.
  unfold ret, correlated, stored, with_db, publish_all. simpl.
  by rewrite insert_insert_eq.
Qed.

Lemma correlated_lookup_live self transport msg w elapsed :
  lookup_live (advance elapsed (correlated self transport msg w))
    (ContentKeywordRouter.get_message_key self (message_id msg))
  = if (elapsed <? ContentKeywordRouter.expire_routing_timeout self)%Z
    then Some (transport_name msg) else None.
Proof.
  unfold lookup_live, advance, correlated, with_db, publish_all, live. simpl.
  rewrite lookup_insert_eq. simpl.
  destruct (elapsed <? ContentKeywordRouter.expire_routing_timeout self)%Z eqn:Hlt.
  - apply Z.ltb_lt in Hlt.
    by rewrite (proj2 (Z.ltb_lt _ _)) by lia.
  - apply Z.ltb_ge in Hlt.
    by rewrite (proj2 (Z.ltb_ge _ _)) by lia.
Qed.

Lemma destinations_since_publish_all w l :
  destinations_since w (publish_all w l) = routing_key <$> l.
Proof. unfold destinations_since, publish_all. simpl. by rewrite drop_app_length. Qed.

Lemma destinations_since_log_all w l : destinations_since w (log_all w l) = [].
Proof. unfold destinations_since, log_all. simpl. by rewrite drop_all. Qed.

Lemma destinations_since_log_publish w logs l :
  destinations_since w (publish_all (log_all w logs) l) = routing_key <$> l.
Proof. unfold destinations_since, publish_all, log_all. simpl. by rewrite drop_app_length. Qed.

(** What an event finds when it arrives [elapsed] seconds after the
    outbound message it belongs to. *)
Lemma keyword_event_after_outbound d self msg transport ev elapsed w :
  user_message_id ev = message_id msg →
  (0 <= elapsed < ContentKeywordRouter.expire_routing_timeout self)%Z →
  let w1 := advance elapsed (correlated self transport msg w) in
  ∃ w2, ContentKeywordRouter.dispatch_inbound_event d self ev w1 = (Ok tt, w2)
        ∧ destinations_since w1 w2 =
            if decide (transport_name msg ∈ _exposed_names d)
            then [transport_name msg +:+ ".event"] else [].
Proof.
  intros Hid Hel w1.
  assert (Hl : lookup_live w1 (ContentKeywordRouter.get_message_key self (user_message_id ev))
               = Some (transport_name msg)).
  { unfold w1. rewrite Hid, correlated_lookup_live.
    by rewrite (proj2 (Z.ltb_lt _ _)) by lia. }
  destruct (transport_name msg) as [|a name] eqn:Hname.
  - rewrite (keyword_event_empty_entry _ _ _ _ Hl). eexists. split; [done|].
    destruct (decide (EmptyString ∈ _exposed_names d)).
    + by rewrite destinations_since_log_publish.
    + by rewrite destinations_since_log_all.
  - rewrite (keyword_event_entry _ _ _ _ _ Hl) by done. eexists. split; [done|].
    destruct (decide (String a name ∈ _exposed_names d)).
    + by rewrite destinations_since_publish_all.
    + by rewrite destinations_since_log_all.
Qed.

(** C10. The correlation entry written for an outbound message holds the
    [transport_name] field of the message itself, whatever transport
    [transport_mappings] resolved and published to; an event for that
    message arriving before the expiry is published on the event queue of
    the exposed name equal to that field, and on no queue when no exposed
    name equals it. Hence the event reaches an exposed app only when the
    message named that app in its [transport_name]. *)
Theorem keyword_correlation_holds_message_transport_name
    (d : BaseDispatchWorker) (self : ContentKeywordRouter.t)
    (msg : TransportUserMessage) (transport : string) (w : world) :
  ContentKeywordRouter.transport_mappings self !! from_addr msg = Some transport →
  transport ∈ _transport_names d →
  ∃ w1,
    ContentKeywordRouter.dispatch_outbound_message d self msg w = (Ok tt, w1)
    ∧ published w1 =
        (published w ++ [Publication (transport +:+ ".outbound") (UserMessage msg)])%list
    ∧ redis_db w1 !! ContentKeywordRouter.get_message_key self (message_id msg) =
        Some (Entry (transport_name msg)
                (Some (clock w + ContentKeywordRouter.expire_routing_timeout self)%Z))
    ∧ ∀ ev elapsed,
        user_message_id ev = message_id msg →
        (0 <= elapsed < ContentKeywordRouter.expire_routing_timeout self)%Z →
        ∃ w2,
          ContentKeywordRouter.dispatch_inbound_event d self ev (advance elapsed w1)
            = (Ok tt, w2)
          ∧ destinations_since (advance elapsed w1) w2 =
              (if decide (transport_name msg ∈ _exposed_names d)
               then [transport_name msg +:+ ".event"] else [])
          ∧ ∀ app, app +:+ ".event" ∈ destinations_since (advance elapsed w1) w2 →
                   app = transport_name msg.
Proof.
  intros Hl Hin. exists (correlated self transport msg w).
  split; [by apply keyword_outbound_run|]. split; [done|]. split.
  - unfold correlated, with_db. simpl. by rewrite lookup_insert_eq.
  - intros ev elapsed Hid Hel.
    destruct (keyword_event_after_outbound d self msg transport ev elapsed w Hid Hel)
      as (w2 & Hrun & Hdest).
    exists w2. split; [done|]. split; [done|].
    intros app Happ. rewrite Hdest in Happ.
    destruct (decide (transport_name msg ∈ _exposed_names d)).
    + apply list_elem_of_singleton in Happ. by apply append_inj_r in Happ.
    + by apply elem_of_nil in Happ.
Qed.

Lemma keyword_correlation_holds_message_transport_name_witness :
  ∃ w1,
    ContentKeywordRouter.dispatch_outbound_message
      Sample.worker SampleKeyword.router SampleCorrelation.misnamed Sample.w0 = (Ok tt, w1)
    ∧ published w1 =
        (published Sample.w0
           ++ [Publication "t1.outbound" (UserMessage SampleCorrelation.misnamed)])%list
    ∧ redis_db w1 !! ContentKeywordRouter.get_message_key SampleKeyword.router "m1" =
        Some (Entry "app2" (Some 10%Z))
    ∧ ∀ ev elapsed,
        user_message_id ev = "m1" →
        (0 <= elapsed < 10)%Z →
        ∃ w2,
          ContentKeywordRouter.dispatch_inbound_event
            Sample.worker SampleKeyword.router ev (advance elapsed w1) = (Ok tt, w2)
          ∧ destinations_since (advance elapsed w1) w2 =
              (if decide ("app2" ∈ _exposed_names Sample.worker)
               then ["app2" +:+ ".event"] else [])
          ∧ ∀ app, app +:+ ".event" ∈ destinations_since (advance elapsed w1) w2 →
                   app = "app2".
Proof.
  apply (keyword_correlation_holds_message_transport_name
           Sample.worker SampleKeyword.router SampleCorrelation.misnamed "t1" Sample.w0).
  - reflexivity.
  - repeat constructor.
Defined.

(** C2, as stated, fails: the application [app1] sends a reply whose
    [transport_name] field names [app2]; the event for that reply, arriving
    one second later, is published to [app2] and not to [app1]. *)
Lemma keyword_event_not_returned_to_sender :
  "app1" ∈ _exposed_names Sample.worker
  ∧ ContentKeywordRouter.transport_mappings SampleKeyword.router
      !! from_addr SampleCorrelation.misnamed = Some "t1"
  ∧ ¬ (∃ w1 w2,
         ContentKeywordRouter.dispatch_outbound_message
           Sample.worker SampleKeyword.router SampleCorrelation.misnamed Sample.w0
           = (Ok tt, w1)
         ∧ ContentKeywordRouter.dispatch_inbound_event
             Sample.worker SampleKeyword.router Sample.event (advance 1 w1) = (Ok tt, w2)
         ∧ "app1.event" ∈ destinations_since (advance 1 w1) w2).
Proof.
  split; [repeat constructor|]. split; [reflexivity|].
  intros (w1 & w2 & Hout & Hev & Hin).
  rewrite (keyword_outbound_run _ _ _ "t1") in Hout;
    [|reflexivity | repeat constructor].
  inversion Hout; subst w1; clear Hout.
  destruct (keyword_event_after_outbound
              Sample.worker SampleKeyword.router SampleCorrelation.misnamed "t1"
              Sample.event 1%Z Sample.w0 eq_refl ltac:(simpl; lia))
    as (w2' & Hev' & Hdest).
  rewrite Hev in Hev'. inversion Hev'; subst w2'.
  rewrite Hdest in Hin. rewrite decide_True in Hin by (right; left).
  apply list_elem_of_singleton in Hin. discriminate.
Qed.

(** C2, amended. When the [from_addr] of an outbound message is mapped to
    one of the worker's transports and the [transport_name] field of the
    message is the name of the exposed app that sent it, an event with the
    [message_id] of that message as its [user_message_id], arriving before
    [expire_routing_memory] seconds have passed, is published to that app;
    arriving later, it finds no entry and is dropped with two diagnostics. *)
Theorem keyword_correlation_round_trip
    (d : BaseDispatchWorker) (self : ContentKeywordRouter.t)
    (msg : TransportUserMessage) (ev : TransportEvent)
    (transport app : string) (elapsed : Z) (w : world) :
  ContentKeywordRouter.transport_mappings self !! from_addr msg = Some transport →
  transport ∈ _transport_names d →
  app ∈ _exposed_names d →
  transport_name msg = app →
  user_message_id ev = message_id msg →
  (0 <= elapsed)%Z →
  ∃ w1,
    ContentKeywordRouter.dispatch_outbound_message d self msg w = (Ok tt, w1)
    ∧ ((elapsed < ContentKeywordRouter.expire_routing_timeout self)%Z →
       ∃ w2,
         ContentKeywordRouter.dispatch_inbound_event d self ev (advance elapsed w1)
           = (Ok tt, w2)
         ∧ destinations_since (advance elapsed w1) w2 = [app +:+ ".event"])
    ∧ ((ContentKeywordRouter.expire_routing_timeout self <= elapsed)%Z →
       ContentKeywordRouter.dispatch_inbound_event d self ev (advance elapsed w1)
         = (Ok tt, log_all (advance elapsed w1)
                     [NoReturnRoute (user_message_id ev); NoPublishingRoute None])).
Proof.
  intros Hl Hin Happ Hname Hid Hel. exists (correlated self transport msg w).
  split; [by apply keyword_outbound_run|]. split.
  - intros Hlt.
    destruct (keyword_event_after_outbound d self msg transport ev elapsed w Hid
                (conj Hel Hlt)) as (w2 & Hrun & Hdest).
    exists w2. split; [done|]. rewrite Hdest, Hname. by rewrite decide_True.
  - intros Hge. apply keyword_event_no_entry.
    rewrite Hid, correlated_lookup_live.
    by rewrite (proj2 (Z.ltb_ge _ _)) by lia.
Qed.

Lemma keyword_correlation_round_trip_witness :
  ∃ w1,
    ContentKeywordRouter.dispatch_outbound_message
      Sample.worker SampleKeyword.router SampleCorrelation.reply Sample.w0 = (Ok tt, w1)
    ∧ ((3 < ContentKeywordRouter.expire_routing_timeout SampleKeyword.router)%Z →
       ∃ w2,
         ContentKeywordRouter.dispatch_inbound_event
           Sample.worker SampleKeyword.router Sample.event (advance 3 w1) = (Ok tt, w2)
         ∧ destinations_since (advance 3 w1) w2 = ["app1" +:+ ".event"])
    ∧ ((ContentKeywordRouter.expire_routing_timeout SampleKeyword.router <= 3)%Z →
       ContentKeywordRouter.dispatch_inbound_event
         Sample.worker SampleKeyword.router Sample.event (advance 3 w1)
         = (Ok tt, log_all (advance 3 w1)
                     [NoReturnRoute (user_message_id Sample.event);
                      NoPublishingRoute None])).
Proof.
  apply (keyword_correlation_round_trip
           Sample.worker SampleKeyword.router SampleCorrelation.reply Sample.event
           "t1" "app1" 3%Z Sample.w0).
  - reflexivity.
  - repeat constructor.
  - repeat constructor.
  - reflexivity.
  - reflexivity.
  - lia.
Defined.

(** ** Dispatching the same message twice *)

Lemma emit_emit w p1 l1 p2 l2 :
  emit (emit w p1 l1) p2 l2 = emit w (p1 ++ p2)%list (l1 ++ l2)%list.
Proof. unfold emit; simpl. by rewrite <- !app_assoc. Qed.

Lemma emit_nil w : emit w [] [] = w.
Proof. destruct w; unfold emit; simpl. by rewrite !app_nil_r. Qed.

Lemma destinations_since_emit w pubs logs :
  destinations_since w (emit w pubs logs) = routing_key <$> pubs.
Proof. unfold destinations_since, emit. simpl. by rewrite drop_app_length. Qed.

Lemma lookup_live_emit w pubs logs key :
  lookup_live (emit w pubs logs) key = lookup_live w key.
Proof. reflexivity. Qed.

Lemma stateless_ret {A} (a : A) : stateless (ret a).
Proof. exists (Ok a), [], []. intros w. unfold ret. by rewrite emit_nil. Qed.

Lemma stateless_raise {A} e : stateless (@raise A e).
Proof. exists (Raise e), [], []. intros w. unfold raise. by rewrite emit_nil. Qed.

Lemma stateless_log_error diag : stateless (log_error diag).
Proof.
  exists (Ok tt), [], [diag]. intros w. unfold log_error, emit. simpl.
  by rewrite app_nil_r.
Qed.

Lemma stateless_publish_message p msg : stateless (publish_message p msg).
Proof.
  exists (Ok tt), [Publication p msg], []. intros w. unfold publish_message, emit.
  simpl. by rewrite app_nil_r.
Qed.

Lemma stateless_getitem {V} (m : gmap string V) key : stateless (getitem m key).
Proof. unfold getitem. destruct (m !! key); [apply stateless_ret | apply stateless_raise]. Qed.

Lemma stateless_bind {A B} (c : M A) (k : A → M B) :
  stateless c → (∀ a, stateless (k a)) → stateless (bind c k).
Proof.
  intros (res & pubs & logs & Hc) Hk. destruct res as [a|e].
  - destruct (Hk a) as (res' & pubs' & logs' & Hka).
    exists res', (pubs ++ pubs')%list, (logs ++ logs')%list. intros w.
    unfold bind. by rewrite Hc, Hka, emit_emit.
  - exists (Raise e), pubs, logs. intros w. unfold bind. by rewrite Hc.
Qed.

Lemma stateless_for_each {A} (l : list A) (body : A → M unit) :
  (∀ x, stateless (body x)) → stateless (for_each l body).
Proof.
  intros Hbody. induction l as [|x l IH]; simpl.
  - apply stateless_ret.
  - apply stateless_bind; [apply Hbody | intros _; apply IH].
Qed.

Lemma stateless_twice {A} (c : M A) w :
  stateless c →
  destinations_since w (c w).2 = destinations_since (c w).2 (c (c w).2).2.
Proof.
  intros (res & pubs & logs & Hc). rewrite !Hc. simpl.
  by rewrite !destinations_since_emit.
Qed.

Lemma stateless_any_world {A} (c : M A) w w' :
  stateless c →
  destinations_since w (c w).2 = destinations_since w' (c w').2.
Proof.
  intros (res & pubs & logs & Hc). rewrite !Hc. simpl.
  by rewrite !destinations_since_emit.
Qed.

Lemma simple_inbound_stateless d c msg :
  stateless (SimpleDispatchRouter.dispatch_inbound_message d c msg).
Proof.
  apply stateless_bind; [apply stateless_getitem|]. intros names.
  apply stateless_for_each. intros name.
  apply stateless_bind; [apply stateless_getitem|]. intros p.
  apply stateless_publish_message.
Qed.

Lemma transport_to_transport_inbound_stateless d c msg :
  stateless (TransportToTransportRouter.dispatch_inbound_message d c msg).
Proof.
  apply stateless_bind; [apply stateless_getitem|]. intros names.
  apply stateless_for_each. intros name.
  apply stateless_bind; [apply stateless_getitem|]. intros p.
  apply stateless_publish_message.
Qed.

Lemma toaddr_inbound_stateless `{Regex} d (r : ToAddrRouter.t) msg :
  stateless (ToAddrRouter.dispatch_inbound_message d r msg).
Proof.
  apply stateless_for_each. intros [name regex].
  destruct (re_match regex (to_addr msg)); [|apply stateless_ret].
  apply stateless_bind; [apply stateless_getitem|]. intros p.
  apply stateless_publish_message.
Qed.

Lemma keyword_dispatch_rules_stateless d keyword msg l matched :
  stateless (ContentKeywordRouter.dispatch_rules d keyword msg l matched).
Proof.
  revert matched. induction l as [|r l IH]; intros matched; simpl.
  - apply stateless_ret.
  - apply stateless_bind.
    + unfold ContentKeywordRouter.is_msg_matching_routing_rules.
      apply stateless_bind; [|intros; apply stateless_ret].
      unfold ContentKeywordRouter.rule_getitem.
      destruct (rule_keyword r); [apply stateless_ret | apply stateless_raise].
    + intros [|]; [|apply IH].
      apply stateless_bind.
      * unfold ContentKeywordRouter.rule_getitem.
        destruct (rule_app r); [apply stateless_ret | apply stateless_raise].
      * intros app. apply stateless_bind; [|intros; apply IH].
        apply stateless_bind; [apply stateless_getitem|]. intros p.
        apply stateless_publish_message.
Qed.

Lemma keyword_inbound_stateless `{VumiUtils} d (r : ContentKeywordRouter.t) msg :
  stateless (ContentKeywordRouter.dispatch_inbound_message d r msg).
Proof.
  apply stateless_bind; [apply keyword_dispatch_rules_stateless|].
  intros [|]; simpl; [apply stateless_ret|].
  destruct (ContentKeywordRouter.fallback_application r).
  - apply stateless_bind; [apply stateless_getitem|]. intros p.
    apply stateless_publish_message.
  - apply stateless_log_error.
Qed.

Lemma destinations_since_app w w' pubs :
  published w' = (published w ++ pubs)%list →
  destinations_since w w' = routing_key <$> pubs.
Proof. intros Hp. unfold destinations_since. by rewrite Hp, drop_app_length. Qed.

Lemma destinations_since_same w w' :
  published w' = published w → destinations_since w w' = [].
Proof. intros Hp. rewrite (destinations_since_app w w' []); [done|]. by rewrite app_nil_r. Qed.

Lemma multiplex_inbound_run d (r : FromAddrMultiplexRouter.t) msg w :
  FromAddrMultiplexRouter.dispatch_inbound_message d r msg w =
    let name := FromAddrMultiplexRouter.exposed_name r in
    let rewritten := set_transport_name name (UserMessage msg) in
    if decide (name ∈ _exposed_names d)
    then (Ok rewritten, publish_all w [Publication (name +:+ ".inbound") rewritten])
    else (Raise (KeyError (Some name)), w).
Proof.
  unfold FromAddrMultiplexRouter.dispatch_inbound_message, bind at 1, getitem.
  unfold exposed_publisher. simpl.
  destruct (decide (FromAddrMultiplexRouter.exposed_name r ∈ _exposed_names d)) as [Hin|Hin].
  - by rewrite (publishers_lookup_in _ _ _ Hin).
  - by rewrite (publishers_lookup_notin _ _ _ Hin).
Qed.

Section UserGroupingTwice.
Variable d : BaseDispatchWorker.
Variable c : UserGroupingRouter.config.
Variable msg : TransportUserMessage.
Local Abbreviation self := (UserGroupingRouter.setup_routing c).
Local Abbreviation counter_key := (UserGroupingRouter.r_key self ["round-robin"]).
Local Abbreviation user_key := (UserGroupingRouter.get_user_key self (user msg)).

(** What follows the choice of the group in [dispatch_inbound_message]. *)
Let publish_to_group (group : string) : M unit :=
  (app <- getitem (UserGroupingRouter.groups self) group ;;
   p <- getitem (exposed_publisher d) app ;;
   publish_message p (UserMessage msg))%dispatch.

Lemma publish_to_group_stateless group : stateless (publish_to_group group).
Proof.
  apply stateless_bind; [apply stateless_getitem|]. intros app.
  apply stateless_bind; [apply stateless_getitem|]. intros p.
  apply stateless_publish_message.
Qed.

Lemma grouping_inbound_unfold w :
  UserGroupingRouter.dispatch_inbound_message d self msg w =
    match UserGroupingRouter.get_group_for_user self (user msg) w with
    | (Ok group, w') => publish_to_group group w'
    | (Raise e, w') => (Raise e, w')
    end.
Proof. reflexivity. Qed.

Lemma get_next_group_no_groups counter w :
  UserGroupingRouter.group_mappings c = ∅ →
  counter_value w counter_key = Some counter →
  UserGroupingRouter.get_next_group self w =
    (Raise ZeroDivisionError, incremented w counter_key counter).
Proof.
  intros Hempty Hc. unfold UserGroupingRouter.get_next_group, UserGroupingRouter.get_counter.
  unfold bind. rewrite (r_incr_run _ _ _ Hc). simpl.
  by rewrite Hempty, map_size_empty.
Qed.

Lemma get_next_group_unreadable w :
  counter_value w counter_key = None →
  UserGroupingRouter.get_next_group self w = (Raise ResponseError, w).
Proof.
  intros Hc. unfold UserGroupingRouter.get_next_group, UserGroupingRouter.get_counter.
  unfold bind. by rewrite (r_incr_unreadable _ _ Hc).
Qed.

Lemma get_group_for_user_absent w :
  lookup_live w user_key = None ∨ lookup_live w user_key = Some EmptyString →
  UserGroupingRouter.get_group_for_user self (user msg) w =
    match UserGroupingRouter.get_next_group self w with
    | (Ok next, w') => (Ok next.1, stored w' user_key next.1)
    | (Raise e, w') => (Raise e, w')
    end.
Proof.
  intros Habsent. unfold UserGroupingRouter.get_group_for_user. unfold bind at 1.
  rewrite r_get_run.
  assert (Hgoal : (next <- UserGroupingRouter.get_next_group self ;;
                   let group := next.1 in
                   r_set user_key group ;;; ret group)%dispatch w
                  = match UserGroupingRouter.get_next_group self w with
                    | (Ok next, w') => (Ok next.1, stored w' user_key next.1)
                    | (Raise e, w') => (Raise e, w')
                    end).
  { unfold bind at 1. by destruct (UserGroupingRouter.get_next_group self w) as [[next|e] w']. }
  by destruct Habsent as [-> | ->].
Qed.

Lemma grouping_inbound_twice w :
  UserGroupingRouter.group_mappings c !! EmptyString = None →
  let first := UserGroupingRouter.dispatch_inbound_message d self msg w in
  let second := UserGroupingRouter.dispatch_inbound_message d self msg first.2 in
  destinations_since w first.2 = destinations_since first.2 second.2
  ∧ (is_ok first.1 → redis_db second.2 = redis_db first.2).
Proof.
  intros Hnoempty. cbv zeta.
  assert (Hread : ∀ g w0, lookup_live w0 user_key = Some g → g ≠ EmptyString →
            ∀ pubs0, published w0 = (published w ++ pubs0)%list →
            pubs0 = [] →
            let first := publish_to_group g w0 in
            let second := UserGroupingRouter.dispatch_inbound_message d self msg first.2 in
            destinations_since w first.2 = destinations_since first.2 second.2
            ∧ redis_db second.2 = redis_db first.2).
  { intros g w0 Hl Hg pubs0 Hpub -> . cbv zeta.
    destruct (publish_to_group_stateless g) as (res & pubs & logs & Hrun).
    rewrite Hrun. cbn [fst snd]. rewrite grouping_inbound_unfold.
    rewrite (get_group_for_user_reads c (user msg) g (emit w0 pubs logs)) by done.
    rewrite Hrun. cbn [fst snd]. rewrite destinations_since_emit. split; [|done].
    apply destinations_since_app. simpl. rewrite Hpub. by rewrite app_nil_r. }
  rewrite (grouping_inbound_unfold w).
  destruct (lookup_live w user_key) as [[|a g]|] eqn:Hl.
  2:{ rewrite (get_group_for_user_reads c (user msg) (String a g) w) by done.
      destruct (Hread (String a g) w Hl ltac:(done) [] ltac:(by rewrite app_nil_r) eq_refl)
        as [H1 H2].
      split; [exact H1 | intros _; exact H2]. }
  all: rewrite (get_group_for_user_absent w) by (rewrite Hl; tauto).
  all: destruct (counter_value w counter_key) as [counter|] eqn:Hc.
  all: try (rewrite (get_next_group_unreadable w Hc); cbn [fst snd];
            rewrite (grouping_inbound_unfold w);
            rewrite (get_group_for_user_absent w) by (rewrite Hl; tauto);
            rewrite (get_next_group_unreadable w Hc); cbn [fst snd];
            split; [by rewrite !destinations_since_same | done]).
  all: destruct (decide (UserGroupingRouter.group_mappings c = ∅)) as [Hempty|Hne].
  all: try (rewrite (get_next_group_no_groups counter w Hempty Hc); cbn [fst snd];
            rewrite grouping_inbound_unfold;
            rewrite (get_group_for_user_absent (incremented w counter_key counter))
              by (rewrite incremented_lookup_live;
                  rewrite decide_False by apply user_key_not_counter_key;
                  rewrite Hl; tauto);
            rewrite (get_next_group_no_groups (counter + 1)
                       (incremented w counter_key counter) Hempty
                       (incremented_counter_value _ _ _)); cbn [fst snd];
            split; [by rewrite !destinations_since_same | done]).
  all: destruct (get_next_group_run c counter w Hne Hc) as (g & app & Hrun & _ & Hin).
  all: rewrite Hrun; cbn [fst snd].
  all: assert (Hg : g ≠ EmptyString) by (intros ->; congruence).
  all: destruct (Hread g (stored (incremented w counter_key counter) user_key g)
                   ltac:(rewrite stored_lookup_live; by rewrite decide_True) Hg []
                   ltac:(by rewrite app_nil_r) eq_refl) as [H1 H2].
  all: split; [exact H1 | intros _; exact H2].
Qed.

End UserGroupingTwice.

Section DispatchTwice.
Context `{Regex} `{VumiUtils}.

Lemma wrapped_message_after (c : M unit) msg w :
  message_after msg ((c ;;; ret (UserMessage msg))%dispatch w).1 = msg.
Proof. unfold bind, ret. by destruct (c w) as [[[]|e] w']. Qed.

Lemma wrapped_world (c : M unit) (p : payload) w :
  ((c ;;; ret p)%dispatch w).2 = (c w).2.
Proof. unfold bind, ret. by destruct (c w) as [[[]|e] w']. Qed.

Lemma wrapped_is_ok (c : M unit) (p : payload) w :
  is_ok ((c ;;; ret p)%dispatch w).1 ↔ is_ok (c w).1.
Proof. unfold bind, ret. by destruct (c w) as [[[]|e] w']. Qed.


End DispatchTwice.



(** * Further properties of the routers *)

(** ** The publishers of the worker *)

(** X1. [setup_transport_publishers] and [setup_exposed_publishers] open one
    publisher for every configured name and for no other, on the queue
    [name.outbound], [name.inbound] and [name.event]; a name listed twice
    has the same publisher. *)
Theorem worker_publishers_exactly_for_names (d : BaseDispatchWorker) (name : string) :
  transport_publisher d !! name =
    (if decide (name ∈ _transport_names d) then Some (name +:+ ".outbound") else None)
  ∧ exposed_publisher d !! name =
      (if decide (name ∈ _exposed_names d) then Some (name +:+ ".inbound") else None)
  ∧ exposed_event_publisher d !! name =
      (if decide (name ∈ _exposed_names d) then Some (name +:+ ".event") else None).
Proof.
  unfold transport_publisher, exposed_publisher, exposed_event_publisher.
  split; [|split].
  - destruct (decide (name ∈ _transport_names d)) as [Hin|Hin];
      [by apply publishers_lookup_in | by apply publishers_lookup_notin].
  - destruct (decide (name ∈ _exposed_names d)) as [Hin|Hin];
      [by apply publishers_lookup_in | by apply publishers_lookup_notin].
  - destruct (decide (name ∈ _exposed_names d)) as [Hin|Hin];
      [by apply publishers_lookup_in | by apply publishers_lookup_notin].
Qed.

(** ** SimpleDispatchRouter: outbound messages, events, broken tables *)

(** X2. An outbound message goes to one transport: the one that
    [transport_mappings] gives for its [transport_name], or the
    [transport_name] itself when the table is absent or has no entry. When
    that name is not a transport of the worker the [KeyError] reaches the
    caller and nothing is published. *)
Theorem simple_dispatch_outbound_message_single_destination
    (d : BaseDispatchWorker) (cfg : SimpleDispatchRouter.config)
    (msg : TransportUserMessage) (w : world) :
  let name :=
    default (transport_name msg)
      (default ∅ (SimpleDispatchRouter.transport_mappings cfg) !! transport_name msg) in
  SimpleDispatchRouter.dispatch_outbound_message d cfg msg w =
    if decide (name ∈ _transport_names d)
    then (Ok tt, publish_all w [Publication (name +:+ ".outbound") (UserMessage msg)])
    else (Raise (KeyError (Some name)), w).
Proof.
  cbv zeta. unfold SimpleDispatchRouter.dispatch_outbound_message, bind, getitem.
  unfold transport_publisher.
  destruct (decide (_ ∈ _transport_names d)) as [Hin|Hin].
  - by rewrite (publishers_lookup_in _ _ _ Hin).
  - by rewrite (publishers_lookup_notin _ _ _ Hin).
Qed.

(** A loop that publishes to the names of a list stops at the first name
    without a publisher; what was published before it stays published. *)
Lemma for_each_publish_stops suffix exposed known bad rest msg w :
  Forall (λ n, n ∈ exposed) known →
  bad ∉ exposed →
  for_each (known ++ bad :: rest)%list (λ name,
      p <- getitem (publishers suffix exposed) name ;;
      publish_message p msg) w
  = (Raise (KeyError (Some bad)),
     publish_all w ((λ n, Publication (n +:+ suffix) msg) <$> known)).
Proof.
  intros Hall Hbad. revert w. induction Hall as [|n known Hn _ IH]; intros w; simpl.
  - unfold bind at 1. unfold bind at 1. unfold getitem.
    rewrite (publishers_lookup_notin _ _ _ Hbad). simpl. by rewrite publish_all_nil.
  - unfold bind at 1. unfold bind at 1. unfold getitem.
    rewrite (publishers_lookup_in _ _ _ Hn). simpl.
    rewrite IH. unfold publish_all; simpl. by rewrite <- app_assoc.
Qed.

(** X3. When the list of apps of a transport names an app that the worker does
    not expose, the inbound message is published to the apps listed before
    it, then the [KeyError] is raised: the apps listed after it get
    nothing, and the publications already made are not undone. *)
Theorem simple_inbound_fanout_stops_at_unknown_app
    (d : BaseDispatchWorker) (cfg : SimpleDispatchRouter.config)
    (msg : TransportUserMessage) (w : world) (known rest : list string) (bad : string) :
  SimpleDispatchRouter.route_mappings cfg !! transport_name msg
    = Some (known ++ bad :: rest)%list →
  Forall (λ n, n ∈ _exposed_names d) known →
  bad ∉ _exposed_names d →
  SimpleDispatchRouter.dispatch_inbound_message d cfg msg w =
    (Raise (KeyError (Some bad)),
     publish_all w ((λ n, Publication (n +:+ ".inbound") (UserMessage msg)) <$> known)).
Proof.
  intros Hl Hknown Hbad.
  unfold SimpleDispatchRouter.dispatch_inbound_message, bind at 1, getitem at 1.
  rewrite Hl. simpl. by apply for_each_publish_stops.
Qed.

Lemma simple_inbound_fanout_stops_at_unknown_app_witness :
  SimpleDispatchRouter.dispatch_inbound_message
    Sample.worker SampleRoutes.remapped Sample.msg Sample.w0 =
    (Raise (KeyError (Some "ghost")),
     publish_all Sample.w0 [Publication "app1.inbound" (UserMessage Sample.msg)]).
Proof.
  apply (simple_inbound_fanout_stops_at_unknown_app
           Sample.worker SampleRoutes.remapped Sample.msg Sample.w0
           ["app1"] ["app2"] "ghost").
  - reflexivity.
  - repeat constructor.
  - intros Hin. apply (bool_decide_pack _) in Hin. by vm_compute in Hin.
Defined.

(** X4. An event is published once on the event queue of every exposed app
    listed for its [transport_name], in the order of the list; an event of
    a transport without an entry raises the [KeyError] of the lookup. *)
Theorem simple_dispatch_inbound_event_fanout
    (d : BaseDispatchWorker) (cfg : SimpleDispatchRouter.config)
    (ev : TransportEvent) (w : world) :
  (∀ names,
     SimpleDispatchRouter.route_mappings cfg !! event_transport_name ev = Some names →
     Forall (λ n, n ∈ _exposed_names d) names →
     SimpleDispatchRouter.dispatch_inbound_event d cfg ev w =
       (Ok tt, publish_all w ((λ n, Publication (n +:+ ".event") (Event ev)) <$> names)))
  ∧ (SimpleDispatchRouter.route_mappings cfg !! event_transport_name ev = None →
     SimpleDispatchRouter.dispatch_inbound_event d cfg ev w =
       (Raise (KeyError (Some (event_transport_name ev))), w)).
Proof.
  split.
  - intros names Hlook Hall.
    unfold SimpleDispatchRouter.dispatch_inbound_event, bind at 1, getitem at 1.
    rewrite Hlook. simpl. by apply for_each_publish.
  - intros Hlook.
    unfold SimpleDispatchRouter.dispatch_inbound_event, bind at 1, getitem at 1.
    by rewrite Hlook.
Qed.

Lemma simple_dispatch_inbound_event_fanout_witness :
  SimpleDispatchRouter.dispatch_inbound_event
    Sample.worker Sample.simple Sample.event Sample.w0 =
    (Ok tt, publish_all Sample.w0
              [Publication "app1.event" (Event Sample.event);
               Publication "app2.event" (Event Sample.event)])
  ∧ SimpleDispatchRouter.dispatch_inbound_event
      Sample.worker Sample.simple
      {| event_transport_name := "t9"; user_message_id := "m1" |} Sample.w0 =
      (Raise (KeyError (Some "t9")), Sample.w0).
Proof.
  split.
  - apply (proj1 (simple_dispatch_inbound_event_fanout
                    Sample.worker Sample.simple Sample.event Sample.w0)
                 ["app1"; "app2"]).
    + reflexivity.
    + repeat constructor.
  - apply (proj2 (simple_dispatch_inbound_event_fanout
                    Sample.worker Sample.simple
                    {| event_transport_name := "t9"; user_message_id := "m1" |}
                    Sample.w0)).
    reflexivity.
Defined.

(** ** TransportToTransportRouter *)

Lemma for_each_republish known names msg w :
  Forall (λ n, n ∈ known) names →
  for_each names (λ name,
      let rkey := name +:+ ".outbound" in
      _ <- getitem (publishers ".outbound" known) name ;;
      publish_message rkey msg) w
  = (Ok tt, publish_all w ((λ n, Publication (n +:+ ".outbound") msg) <$> names)).
Proof.
  intros Hall. revert w. induction Hall as [|n names Hn _ IH]; intros w; simpl.
  - by rewrite publish_all_nil.
  - unfold bind at 1. unfold bind at 1. unfold getitem.
    rewrite (publishers_lookup_in _ _ _ Hn). simpl.
    rewrite IH. unfold publish_all; simpl. by rewrite <- app_assoc.
Qed.

(** X5. An inbound message is sent on to the outbound queue of every transport
    listed for its [transport_name]; events and outbound messages are
    thrown away: they change nothing and never fail. *)
Theorem transport_to_transport_republishes
    (d : BaseDispatchWorker) (cfg : TransportToTransportRouter.config)
    (msg : TransportUserMessage) (ev : TransportEvent) (w : world) :
  (∀ names,
     TransportToTransportRouter.route_mappings cfg !! transport_name msg = Some names →
     Forall (λ n, n ∈ _transport_names d) names →
     TransportToTransportRouter.dispatch_inbound_message d cfg msg w =
       (Ok tt, publish_all w
                 ((λ n, Publication (n +:+ ".outbound") (UserMessage msg)) <$> names)))
  ∧ (TransportToTransportRouter.route_mappings cfg !! transport_name msg = None →
     TransportToTransportRouter.dispatch_inbound_message d cfg msg w =
       (Raise (KeyError (Some (transport_name msg))), w))
  ∧ TransportToTransportRouter.dispatch_inbound_event d cfg ev w = (Ok tt, w)
  ∧ TransportToTransportRouter.dispatch_outbound_message d cfg msg w = (Ok tt, w).
Proof.
  split; [|split; [|done]].
  - intros names Hlook Hall.
    unfold TransportToTransportRouter.dispatch_inbound_message, bind at 1, getitem at 1.
    rewrite Hlook. simpl. by apply for_each_republish.
  - intros Hlook.
    unfold TransportToTransportRouter.dispatch_inbound_message, bind at 1, getitem at 1.
    by rewrite Hlook.
Qed.

Lemma transport_to_transport_republishes_witness :
  TransportToTransportRouter.dispatch_inbound_message
    Sample.worker SampleRoutes.bridge Sample.msg Sample.w0 =
    (Ok tt, publish_all Sample.w0
              [Publication "t2.outbound" (UserMessage Sample.msg);
               Publication "t1.outbound" (UserMessage Sample.msg)])
  ∧ TransportToTransportRouter.dispatch_inbound_message
      Sample.worker SampleRoutes.bridge Sample.stray Sample.w0 =
      (Raise (KeyError (Some "app1")), Sample.w0).
Proof.
  split.
  - apply (proj1 (transport_to_transport_republishes
                    Sample.worker SampleRoutes.bridge Sample.msg Sample.event Sample.w0)
                 ["t2"; "t1"]).
    + reflexivity.
    + repeat constructor.
  - apply (proj1 (proj2 (transport_to_transport_republishes
                    Sample.worker SampleRoutes.bridge Sample.stray Sample.event Sample.w0))).
    reflexivity.
Defined.

(** ** ToAddrRouter: setup *)

Section ToAddrSetup.
Context `{Regex}.

Lemma compile_all_complete items :
  Forall (λ item, is_Some (re_compile item.2)) items →
  ∃ l, ToAddrRouter.compile_all items = Ok l.
Proof.
  induction 1 as [|[name pat] items [regex Hre] _ [l IH]]; simpl; [by eexists|].
  simpl in Hre. rewrite Hre, IH. by eexists.
Qed.

Lemma compile_all_refuses items :
  Exists (λ item, re_compile item.2 = None) items →
  ∃ item, item ∈ items ∧ re_compile item.2 = None
          ∧ ToAddrRouter.compile_all items = Raise (RegexError item.2).
Proof.
  induction items as [|[name pat] items IH]; intros Hex; [by inversion Hex|]. simpl.
  destruct (re_compile pat) as [regex|] eqn:Hre.
  - inversion Hex as [? ? Hbad|? ? Hex']; subst; [simpl in Hbad; congruence|].
    destruct (IH Hex') as (item & Hin & Hbad & ->).
    exists item. split; [by right | done].
  - exists (name, pat). split; [left | done].
Qed.

(** X6. [setup_routing] compiles every pattern of [toaddr_mappings] once. When
    all of them compile, the router holds exactly one compiled pattern for
    every app of the table; when one does not, the setup fails with the
    error of a pattern of the table that does not compile. *)
Theorem toaddr_setup_routing_compiles_every_pattern (cfg : ToAddrRouter.config) :
  ((∀ app pat, ToAddrRouter.toaddr_mappings cfg !! app = Some pat →
               is_Some (re_compile pat)) →
   ∃ self, ToAddrRouter.setup_routing cfg = Ok self
           ∧ NoDup (ToAddrRouter.mappings self).*1
           ∧ ∀ app regex,
               (app, regex) ∈ ToAddrRouter.mappings self ↔
               ∃ pat, ToAddrRouter.toaddr_mappings cfg !! app = Some pat
                      ∧ re_compile pat = Some regex)
  ∧ (∀ app pat, ToAddrRouter.toaddr_mappings cfg !! app = Some pat →
                re_compile pat = None →
     ∃ app' bad, ToAddrRouter.toaddr_mappings cfg !! app' = Some bad
                 ∧ re_compile bad = None
                 ∧ ToAddrRouter.setup_routing cfg = Raise (RegexError bad)).
Proof.
  split.
  - intros Hall.
    destruct (compile_all_complete (map_to_list (ToAddrRouter.toaddr_mappings cfg)))
      as [l Hl].
    { apply Forall_forall. intros [app pat] Hin. simpl.
      apply (Hall app). by apply elem_of_map_to_list. }
    exists {| ToAddrRouter.mappings := l |}.
    unfold ToAddrRouter.setup_routing. rewrite Hl. split; [done|]. simpl. split.
    + rewrite (compile_all_names _ _ Hl). apply NoDup_fst_map_to_list.
    + intros app regex. rewrite (compile_all_elem _ _ _ _ Hl).
      split; intros (pat & Hin & Hre); exists pat; split; try done;
        by apply elem_of_map_to_list.
  - intros app pat Hl Hre.
    destruct (compile_all_refuses (map_to_list (ToAddrRouter.toaddr_mappings cfg)))
      as ([app' bad] & Hin & Hbad & Hrun).
    { apply Exists_exists. exists (app, pat). split; [|done].
      by apply elem_of_map_to_list. }
    exists app', bad. split; [by apply elem_of_map_to_list|]. split; [done|].
    unfold ToAddrRouter.setup_routing. by rewrite Hrun.
Qed.

End ToAddrSetup.

Lemma toaddr_setup_routing_compiles_every_pattern_witness :
  (∃ self, @ToAddrRouter.setup_routing LiteralRegex.engine SampleToAddr.config = Ok self
           ∧ NoDup (ToAddrRouter.mappings self).*1
           ∧ ∀ app regex,
               (app, regex) ∈ ToAddrRouter.mappings self ↔
               ∃ pat, ToAddrRouter.toaddr_mappings SampleToAddr.config !! app = Some pat
                      ∧ @re_compile LiteralRegex.engine pat = Some regex)
  ∧ (∃ app' bad, ToAddrRouter.toaddr_mappings SampleRoutes.bad_pattern !! app' = Some bad
                 ∧ @re_compile LiteralRegex.engine bad = None
                 ∧ @ToAddrRouter.setup_routing LiteralRegex.engine SampleRoutes.bad_pattern
                     = Raise (RegexError bad)).
Proof.
  split.
  - apply (proj1 (@toaddr_setup_routing_compiles_every_pattern
                    LiteralRegex.engine SampleToAddr.config)).
    intros app pat Hl. unfold SampleToAddr.config, ToAddrRouter.toaddr_mappings in Hl.
    destruct (decide (app = "app1")) as [->|Hn1].
    { rewrite lookup_insert_eq in Hl. inversion Hl. by eexists. }
    rewrite lookup_insert_ne in Hl by done.
    destruct (decide (app = "app2")) as [->|Hn2].
    { rewrite lookup_singleton_eq in Hl. inversion Hl. by eexists. }
    rewrite lookup_singleton_ne in Hl by done. discriminate.
  - apply (proj2 (@toaddr_setup_routing_compiles_every_pattern
                    LiteralRegex.engine SampleRoutes.bad_pattern) "app1" "12(3").
    + reflexivity.
    + reflexivity.
Defined.

(** ** FromAddrMultiplexRouter: inbound messages and events *)

Lemma multiplex_event_run d (r : FromAddrMultiplexRouter.t) ev w :
  FromAddrMultiplexRouter.dispatch_inbound_event d r ev w =
    let name := FromAddrMultiplexRouter.exposed_name r in
    let rewritten := set_transport_name name (Event ev) in
    if decide (name ∈ _exposed_names d)
    then (Ok rewritten, publish_all w [Publication (name +:+ ".event") rewritten])
    else (Raise (KeyError (Some name)), w).
Proof.
  unfold FromAddrMultiplexRouter.dispatch_inbound_event, bind at 1, getitem.
  unfold exposed_event_publisher. simpl.
  destruct (decide (FromAddrMultiplexRouter.exposed_name r ∈ _exposed_names d)) as [Hin|Hin].
  - by rewrite (publishers_lookup_in _ _ _ Hin).
  - by rewrite (publishers_lookup_notin _ _ _ Hin).
Qed.

(** X7. In a worker whose exposed names are those of the configuration, a
    multiplexer that was set up never fails on inbound traffic: every
    inbound message and every event is published exactly once, on the
    queue of the single exposed name, with its [transport_name] replaced by
    that name whatever it was. *)
Theorem multiplex_inbound_rewrites_transport_name
    (c : FromAddrMultiplexRouter.config) (self : FromAddrMultiplexRouter.t)
    (transports : option (list string))
    (msg : TransportUserMessage) (ev : TransportEvent) (w : world) :
  FromAddrMultiplexRouter.setup_routing c = Ok self →
  let d := setup_endpoints transports (Some (FromAddrMultiplexRouter.exposed_names c)) in
  let name := FromAddrMultiplexRouter.exposed_name self in
  FromAddrMultiplexRouter.exposed_names c = [name]
  ∧ FromAddrMultiplexRouter.dispatch_inbound_message d self msg w =
      (Ok (UserMessage
             {| transport_name := name; to_addr := to_addr msg;
                from_addr := from_addr msg; content := content msg;
                message_id := message_id msg |}),
       publish_all w
         [Publication (name +:+ ".inbound")
            (UserMessage
               {| transport_name := name; to_addr := to_addr msg;
                  from_addr := from_addr msg; content := content msg;
                  message_id := message_id msg |})])
  ∧ FromAddrMultiplexRouter.dispatch_inbound_event d self ev w =
      (Ok (Event {| event_transport_name := name;
                    user_message_id := user_message_id ev |}),
       publish_all w
         [Publication (name +:+ ".event")
            (Event {| event_transport_name := name;
                      user_message_id := user_message_id ev |})]).
Proof.
  intros Hsetup. cbv zeta. unfold FromAddrMultiplexRouter.setup_routing in Hsetup.
  destruct (FromAddrMultiplexRouter.exposed_names c) as [|n [|n' l]] eqn:Hnames;
    try discriminate.
  inversion Hsetup; subst self; clear Hsetup. simpl.
  split; [done|].
  rewrite multiplex_inbound_run, multiplex_event_run. simpl.
  rewrite !decide_True by (simpl; left). done.
Qed.

Lemma multiplex_inbound_rewrites_transport_name_witness :
  let d := setup_endpoints None
             (Some (FromAddrMultiplexRouter.exposed_names Sample.multiplex_config)) in
  FromAddrMultiplexRouter.exposed_names Sample.multiplex_config = ["app1"]
  ∧ FromAddrMultiplexRouter.dispatch_inbound_message d Sample.multiplex Sample.msg Sample.w0 =
      (Ok (UserMessage
             {| transport_name := "app1"; to_addr := "12345"; from_addr := "+2772";
                content := Some "REGISTER please"; message_id := "m1" |}),
       publish_all Sample.w0
         [Publication "app1.inbound"
            (UserMessage
               {| transport_name := "app1"; to_addr := "12345"; from_addr := "+2772";
                  content := Some "REGISTER please"; message_id := "m1" |})])
  ∧ FromAddrMultiplexRouter.dispatch_inbound_event d Sample.multiplex Sample.event Sample.w0 =
      (Ok (Event {| event_transport_name := "app1"; user_message_id := "m1" |}),
       publish_all Sample.w0
         [Publication "app1.event"
            (Event {| event_transport_name := "app1"; user_message_id := "m1" |})]).
Proof.
  apply (multiplex_inbound_rewrites_transport_name
           Sample.multiplex_config Sample.multiplex None Sample.msg Sample.event Sample.w0).
  reflexivity.
Defined.

(** ** UserGroupingRouter: sorted groups, keys, dispatch *)

Lemma ascii_compare_refl a : (a ?= a)%char = Eq.
Proof. unfold Ascii.compare. apply N.compare_refl. Qed.

Lemma string_compare_lt_trans s1 s2 s3 :
  String.compare s1 s2 = Lt → String.compare s2 s3 = Lt → String.compare s1 s3 = Lt.
Proof.
  revert s2 s3. induction s1 as [|a s1 IH]; intros [|b s2] [|c s3]; simpl; try done.
  destruct (a ?= b)%char eqn:Hab; destruct (b ?= c)%char eqn:Hbc; try done.
  - apply Ascii.compare_eq_iff in Hab as ->. rewrite Hbc. apply IH.
  - apply Ascii.compare_eq_iff in Hab as ->. by rewrite Hbc.
  - apply Ascii.compare_eq_iff in Hbc as <-. by rewrite Hab.
  - intros _ _. unfold Ascii.compare in *.
    apply N.compare_lt_iff in Hab, Hbc.
    by rewrite (proj2 (N.compare_lt_iff _ _) (N.lt_trans _ _ _ Hab Hbc)).
Qed.

Lemma item_leb_true_lt x y :
  x.1 ≠ y.1 → item_leb x y = true → name_lt x y.
Proof.
  unfold item_leb, name_lt. intros Hne.
  destruct (String.compare x.1 y.1) eqn:Hc; try done.
  by apply String.compare_eq_iff in Hc.
Qed.

Lemma item_leb_false_lt x y :
  x.1 ≠ y.1 → item_leb x y = false → name_lt y x.
Proof.
  unfold item_leb, name_lt. intros Hne. rewrite (String.compare_antisym x.1 y.1).
  destruct (String.compare y.1 x.1) eqn:Hc; simpl; try done.
  by apply String.compare_eq_iff in Hc.
Qed.

Lemma insert_sorted_ascending x l :
  x.1 ∉ l.*1 →
  StronglySorted name_lt l → StronglySorted name_lt (insert_sorted x l).
Proof.
  induction l as [|y l IH]; intros Hnotin Hs; simpl.
  - repeat constructor.
  - apply not_elem_of_cons in Hnotin as [Hne Hnotin].
    inversion Hs as [|? ? Hs' Hall]; subst.
    destruct (item_leb x y) eqn:Hxy.
    + pose proof (item_leb_true_lt x y Hne Hxy) as Hlt.
      constructor; [done|]. constructor; [done|].
      eapply Forall_impl; [exact Hall|].
      intros z Hyz. unfold name_lt in *. by eapply string_compare_lt_trans.
    + pose proof (item_leb_false_lt x y Hne Hxy) as Hlt.
      constructor; [by apply IH|].
      rewrite insert_sorted_perm. by constructor.
Qed.

(** X8. [sorted] on the items of a dictionary returns the same items, each
    once, with their names in strictly ascending order. *)
Theorem sorted_groups_ascending_by_name (m : gmap string string) :
  sorted (map_to_list m) ≡ₚ map_to_list m
  ∧ StronglySorted name_lt (sorted (map_to_list m)).
Proof.
  split; [apply sorted_perm|].
  pose proof (NoDup_fst_map_to_list m) as Hnd.
  induction (map_to_list m) as [|x l IH]; simpl; [constructor|].
  inversion Hnd as [|? ? Hnotin Hnd']; subst.
  apply insert_sorted_ascending; [|by apply IH].
  by rewrite sorted_perm.
Qed.

Lemma group_key_not_user_key self g u :
  UserGroupingRouter.get_group_key self g ≠ UserGroupingRouter.get_user_key self u.
Proof.
  unfold UserGroupingRouter.get_group_key, UserGroupingRouter.get_user_key,
    UserGroupingRouter.r_key. simpl.
  intros Heq. apply String.app_inj in Heq. by inversion Heq.
Qed.

(** X9. The keys of one router never clash: two users have the same key only
    when they are the same user, and no user key is the key of the
    round-robin counter or the key of a group. *)
Theorem grouping_keys_never_clash (self : UserGroupingRouter.t) (u u' g : string) :
  (UserGroupingRouter.get_user_key self u = UserGroupingRouter.get_user_key self u' →
   u = u')
  ∧ UserGroupingRouter.get_user_key self u ≠ UserGroupingRouter.r_key self ["round-robin"]
  ∧ UserGroupingRouter.get_user_key self u ≠ UserGroupingRouter.get_group_key self g.
Proof.
  split; [apply user_key_inj|]. split.
  - intros Heq. symmetry in Heq. by apply user_key_not_counter_key in Heq.
  - intros Heq. symmetry in Heq. by apply group_key_not_user_key in Heq.
Qed.

Lemma grouping_inbound_run d self msg w :
  UserGroupingRouter.dispatch_inbound_message d self msg w =
    match UserGroupingRouter.get_group_for_user self (user msg) w with
    | (Ok group, w') =>
        match UserGroupingRouter.groups self !! group with
        | Some app =>
            if decide (app ∈ _exposed_names d)
            then (Ok tt, publish_all w' [Publication (app +:+ ".inbound") (UserMessage msg)])
            else (Raise (KeyError (Some app)), w')
        | None => (Raise (KeyError (Some group)), w')
        end
    | (Raise e, w') => (Raise e, w')
    end.
Proof.
  unfold UserGroupingRouter.dispatch_inbound_message. unfold bind at 1.
  destruct (UserGroupingRouter.get_group_for_user self (user msg) w) as [[group|e] w'];
    [|done].
  unfold bind at 1, getitem at 1.
  destruct (UserGroupingRouter.groups self !! group) as [app|]; [|done]. simpl.
  unfold bind, getitem, exposed_publisher.
  destruct (decide (app ∈ _exposed_names d)) as [Hin|Hin].
  - by rewrite (publishers_lookup_in _ _ _ Hin).
  - by rewrite (publishers_lookup_notin _ _ _ Hin).
Qed.

(** X10. With groups whose apps the worker exposes: the first message of a user
    is published to the app of the group at position [counter mod
    nr_of_groups] of the sorted groups, after the counter has been
    incremented and the group stored for the user; a message of a user
    with a stored group is published to the app of that group and the
    store is not touched. *)
Theorem grouping_dispatch_publishes_to_group_app
    (d : BaseDispatchWorker) (c : UserGroupingRouter.config)
    (msg : TransportUserMessage) (w : world) :
  let self := UserGroupingRouter.setup_routing c in
  let user_key := UserGroupingRouter.get_user_key self (user msg) in
  let counter_key := UserGroupingRouter.r_key self ["round-robin"] in
  UserGroupingRouter.group_mappings c ≠ ∅ →
  (∀ g app, UserGroupingRouter.group_mappings c !! g = Some app →
            app ∈ _exposed_names d) →
  (∀ counter,
     lookup_live w user_key = None →
     counter_value w counter_key = Some counter →
     ∃ g app,
       group_at self counter = Some g
       ∧ UserGroupingRouter.group_mappings c !! g = Some app
       ∧ UserGroupingRouter.dispatch_inbound_message d self msg w =
           (Ok tt,
            publish_all (stored (incremented w counter_key counter) user_key g)
              [Publication (app +:+ ".inbound") (UserMessage msg)]))
  ∧ (∀ g app,
       lookup_live w user_key = Some g → g ≠ EmptyString →
       UserGroupingRouter.group_mappings c !! g = Some app →
       UserGroupingRouter.dispatch_inbound_message d self msg w =
         (Ok tt, publish_all w [Publication (app +:+ ".inbound") (UserMessage msg)])).
Proof.
  cbv zeta. intros Hne Hexposed. split.
  - intros counter Habsent Hc.
    destruct (get_next_group_run c counter w Hne Hc) as (g & app & Hrun & Hg & Hin).
    exists g, app. split; [done|]. split; [done|].
    rewrite grouping_inbound_run.
    rewrite (get_group_for_user_absent c msg w (or_introl Habsent)).
    rewrite Hrun. simpl. rewrite Hin.
    by rewrite decide_True by (by eapply Hexposed).
  - intros g app Hl Hg Hin. rewrite grouping_inbound_run.
    rewrite (get_group_for_user_reads c (user msg) g w Hl Hg). simpl. rewrite Hin.
    by rewrite decide_True by (by eapply Hexposed).
Qed.

Lemma grouping_dispatch_publishes_to_group_app_witness :
  (∃ g app,
     group_at SampleGrouping.router 0 = Some g
     ∧ UserGroupingRouter.group_mappings SampleGrouping.config !! g = Some app
     ∧ UserGroupingRouter.dispatch_inbound_message
         Sample.worker SampleGrouping.router Sample.msg Sample.w0 =
         (Ok tt,
          publish_all
            (stored (incremented Sample.w0
                       (UserGroupingRouter.r_key SampleGrouping.router ["round-robin"]) 0)
               (UserGroupingRouter.get_user_key SampleGrouping.router (user Sample.msg)) g)
            [Publication (app +:+ ".inbound") (UserMessage Sample.msg)]))
  ∧ UserGroupingRouter.dispatch_inbound_message
      Sample.worker SampleGrouping.router Sample.msg
      (stored Sample.w0
         (UserGroupingRouter.get_user_key SampleGrouping.router (user Sample.msg)) "group2") =
      (Ok tt,
       publish_all
         (stored Sample.w0
            (UserGroupingRouter.get_user_key SampleGrouping.router (user Sample.msg)) "group2")
         [Publication ("app2" +:+ ".inbound") (UserMessage Sample.msg)]).
Proof.
  assert (Hne : UserGroupingRouter.group_mappings SampleGrouping.config ≠ ∅).
  { intros Heq. apply (f_equal (λ m : gmap string string, m !! "group1")) in Heq.
    vm_compute in Heq. discriminate. }
  assert (Hexposed : ∀ g app,
            UserGroupingRouter.group_mappings SampleGrouping.config !! g = Some app →
            app ∈ _exposed_names Sample.worker).
  { intros g app Hl. unfold SampleGrouping.config, UserGroupingRouter.group_mappings in Hl.
    destruct (decide (g = "group2")) as [->|Hn2].
    { rewrite lookup_insert_eq in Hl. inversion Hl. repeat constructor. }
    rewrite lookup_insert_ne in Hl by done.
    destruct (decide (g = "group1")) as [->|Hn1].
    { rewrite lookup_singleton_eq in Hl. inversion Hl. repeat constructor. }
    rewrite lookup_singleton_ne in Hl by done. discriminate. }
  split.
  - apply (proj1 (grouping_dispatch_publishes_to_group_app
                    Sample.worker SampleGrouping.config Sample.msg Sample.w0
                    Hne Hexposed)).
    + reflexivity.
    + reflexivity.
  - apply (proj2 (grouping_dispatch_publishes_to_group_app
                    Sample.worker SampleGrouping.config Sample.msg
                    (stored Sample.w0
                       (UserGroupingRouter.get_user_key SampleGrouping.router
                          (user Sample.msg)) "group2")
                    Hne Hexposed) "group2" "app2").
    + vm_compute. reflexivity.
    + discriminate.
    + reflexivity.
Defined.

(** X11. A user whose stored group is not a group of the configuration (any
    more) cannot be served: every dispatch of a message of that user raises
    the [KeyError] of the group, publishes nothing and leaves the stale
    entry in place. *)
Theorem grouping_stale_group_raises
    (d : BaseDispatchWorker) (c : UserGroupingRouter.config)
    (msg : TransportUserMessage) (w : world) (g : string) :
  let self := UserGroupingRouter.setup_routing c in
  lookup_live w (UserGroupingRouter.get_user_key self (user msg)) = Some g →
  g ≠ EmptyString →
  UserGroupingRouter.group_mappings c !! g = None →
  UserGroupingRouter.dispatch_inbound_message d self msg w =
    (Raise (KeyError (Some g)), w).
Proof.
  cbv zeta. intros Hl Hg Hnone. rewrite grouping_inbound_run.
  rewrite (get_group_for_user_reads c (user msg) g w Hl Hg). simpl. by rewrite Hnone.
Qed.

Lemma grouping_stale_group_raises_witness :
  UserGroupingRouter.dispatch_inbound_message
    Sample.worker SampleGrouping.router Sample.msg SampleStale.stale_user =
    (Raise (KeyError (Some "group9")), SampleStale.stale_user).
Proof.
  apply (grouping_stale_group_raises
           Sample.worker SampleGrouping.config Sample.msg SampleStale.stale_user "group9").
  - vm_compute. reflexivity.
  - discriminate.
  - reflexivity.
Defined.

(** X12. Without any group, the first message of a user raises
    [ZeroDivisionError]; nothing is published and no group is stored, but
    the round-robin counter has been incremented all the same. *)
Theorem grouping_without_groups_raises
    (d : BaseDispatchWorker) (c : UserGroupingRouter.config)
    (msg : TransportUserMessage) (w : world) (counter : Z) :
  let self := UserGroupingRouter.setup_routing c in
  let counter_key := UserGroupingRouter.r_key self ["round-robin"] in
  UserGroupingRouter.group_mappings c = ∅ →
  lookup_live w (UserGroupingRouter.get_user_key self (user msg)) = None →
  counter_value w counter_key = Some counter →
  UserGroupingRouter.dispatch_inbound_message d self msg w =
    (Raise ZeroDivisionError, incremented w counter_key counter)
  ∧ counter_value (incremented w counter_key counter) counter_key = Some (counter + 1)
  ∧ published (incremented w counter_key counter) = published w
  ∧ lookup_live (incremented w counter_key counter)
      (UserGroupingRouter.get_user_key self (user msg)) = None.
Proof.
  cbv zeta. intros Hempty Habsent Hc. split; [|split; [|split]].
  - rewrite grouping_inbound_run.
    rewrite (get_group_for_user_absent c msg w (or_introl Habsent)).
    by rewrite (get_next_group_no_groups c counter w Hempty Hc).
  - apply incremented_counter_value.
  - done.
  - rewrite incremented_lookup_live.
    by rewrite decide_False by apply user_key_not_counter_key.
Qed.

Lemma grouping_without_groups_raises_witness :
  let self := UserGroupingRouter.setup_routing SampleStale.no_groups in
  let counter_key := UserGroupingRouter.r_key self ["round-robin"] in
  UserGroupingRouter.dispatch_inbound_message Sample.worker self Sample.msg Sample.w0 =
    (Raise ZeroDivisionError, incremented Sample.w0 counter_key 0)
  ∧ counter_value (incremented Sample.w0 counter_key 0) counter_key = Some (0 + 1)
  ∧ published (incremented Sample.w0 counter_key 0) = published Sample.w0
  ∧ lookup_live (incremented Sample.w0 counter_key 0)
      (UserGroupingRouter.get_user_key self (user Sample.msg)) = None.
Proof.
  apply (grouping_without_groups_raises
           Sample.worker SampleStale.no_groups Sample.msg Sample.w0 0).
  - reflexivity.
  - reflexivity.
  - reflexivity.
Defined.

(** ** ContentKeywordRouter: outbound messages without a route *)

(** X14. An outbound message whose [from_addr] has no entry in
    [transport_mappings] is dropped with one diagnostic: nothing is
    published and the store is not written. When the entry names a
    transport that the worker does not have, the [KeyError] of the
    publisher lookup is raised before anything is published or stored, so
    no correlation entry exists for the message. *)
Theorem keyword_outbound_without_route
    (d : BaseDispatchWorker) (self : ContentKeywordRouter.t)
    (msg : TransportUserMessage) (w : world) :
  (ContentKeywordRouter.transport_mappings self !! from_addr msg = None →
   ContentKeywordRouter.dispatch_outbound_message d self msg w =
     (Ok tt, log_all w [NoTransportFor (from_addr msg)]))
  ∧ (∀ transport,
       ContentKeywordRouter.transport_mappings self !! from_addr msg = Some transport →
       transport ∉ _transport_names d →
       ContentKeywordRouter.dispatch_outbound_message d self msg w =
         (Raise (KeyError (Some transport)), w)).
Proof.
  unfold ContentKeywordRouter.dispatch_outbound_message. split.
  - intros Hl. by rewrite Hl.
  - intros transport Hl Hnotin. rewrite Hl.
    unfold bind at 1, ContentKeywordRouter.publish_transport, bind at 1, getitem.
    unfold transport_publisher. by rewrite (publishers_lookup_notin _ _ _ Hnotin).
Qed.

Lemma keyword_outbound_without_route_witness :
  ContentKeywordRouter.dispatch_outbound_message
    Sample.worker SampleKeyword.router Sample.stray Sample.w0 =
    (Ok tt, log_all Sample.w0 [NoTransportFor "+99"])
  ∧ ContentKeywordRouter.dispatch_outbound_message
      Sample.worker SampleOutbound.dangling SampleCorrelation.reply Sample.w0 =
      (Raise (KeyError (Some "t9")), Sample.w0).
Proof.
  split.
  - apply (proj1 (keyword_outbound_without_route
                    Sample.worker SampleKeyword.router Sample.stray Sample.w0)).
    reflexivity.
  - apply (proj2 (keyword_outbound_without_route
                    Sample.worker SampleOutbound.dangling SampleCorrelation.reply Sample.w0)
                 "t9").
    + reflexivity.
    + intros Hin. apply (bool_decide_pack _) in Hin. by vm_compute in Hin.
Defined.

(** ** ContentKeywordRouter: events with an entry *)

(** X15. An event whose entry names an exposed app is published once, on the
    event queue of that app, without any diagnostic; when the name is not
    an exposed app, the failed publication is caught and logged as one
    diagnostic, and nothing is published. An entry holding the empty
    string is reported as a missing return route although it exists. *)
Theorem keyword_event_with_entry
    (d : BaseDispatchWorker) (self : ContentKeywordRouter.t)
    (ev : TransportEvent) (name : string) (w : world) :
  lookup_live w (ContentKeywordRouter.get_message_key self (user_message_id ev))
    = Some name →
  (name ≠ EmptyString → name ∈ _exposed_names d →
   ContentKeywordRouter.dispatch_inbound_event d self ev w =
     (Ok tt, publish_all w [Publication (name +:+ ".event") (Event ev)]))
  ∧ (name ≠ EmptyString → name ∉ _exposed_names d →
     ContentKeywordRouter.dispatch_inbound_event d self ev w =
       (Ok tt, log_all w [NoPublishingRoute (Some name)]))
  ∧ (name = EmptyString → name ∉ _exposed_names d →
     ContentKeywordRouter.dispatch_inbound_event d self ev w =
       (Ok tt, log_all w [NoReturnRoute (user_message_id ev);
                          NoPublishingRoute (Some EmptyString)])).
Proof.
  intros Hl. split; [|split].
  - intros Hne Hin. rewrite (keyword_event_entry _ _ _ _ _ Hl) by done.
    by rewrite decide_True.
  - intros Hne Hin. rewrite (keyword_event_entry _ _ _ _ _ Hl) by done.
    by rewrite decide_False.
  - intros -> Hnotin. rewrite (keyword_event_empty_entry _ _ _ _ Hl).
    by rewrite decide_False.
Qed.

Lemma keyword_event_with_entry_witness :
  ContentKeywordRouter.dispatch_inbound_event
    Sample.worker SampleKeyword.router Sample.event SampleOutbound.unknown_app =
    (Ok tt, log_all SampleOutbound.unknown_app [NoPublishingRoute (Some "app9")])
  ∧ ContentKeywordRouter.dispatch_inbound_event
      Sample.worker SampleKeyword.router Sample.event SampleOutbound.returned =
      (Ok tt, publish_all SampleOutbound.returned
                [Publication "app2.event" (Event Sample.event)])
  ∧ ContentKeywordRouter.dispatch_inbound_event
      Sample.worker SampleKeyword.router Sample.event SampleOutbound.empty_entry =
      (Ok tt, log_all SampleOutbound.empty_entry
                [NoReturnRoute "m1"; NoPublishingRoute (Some EmptyString)]).
Proof.
  split; [|split].
  - apply (proj1 (proj2 (keyword_event_with_entry
                    Sample.worker SampleKeyword.router Sample.event "app9"
                    SampleOutbound.unknown_app ltac:(vm_compute; reflexivity))));
      [discriminate|].
    intros Hin. apply (bool_decide_pack _) in Hin. by vm_compute in Hin.
  - apply (proj1 (keyword_event_with_entry
                    Sample.worker SampleKeyword.router Sample.event "app2"
                    SampleOutbound.returned ltac:(vm_compute; reflexivity)));
      [discriminate | repeat constructor].
  - apply (proj2 (proj2 (keyword_event_with_entry
                    Sample.worker SampleKeyword.router Sample.event EmptyString
                    SampleOutbound.empty_entry ltac:(vm_compute; reflexivity))));
      [reflexivity|].
    intros Hin. apply (bool_decide_pack _) in Hin. by vm_compute in Hin.
Defined.

(** ** ContentKeywordRouter: one entry per message id *)

Lemma message_key_inj self id id' :
  ContentKeywordRouter.get_message_key self id
    = ContentKeywordRouter.get_message_key self id' →
  id = id'.
Proof.
  unfold ContentKeywordRouter.get_message_key, ContentKeywordRouter.r_key. simpl.
  intros Heq. apply String.app_inj in Heq. by inversion Heq.
Qed.

Lemma correlated_other_lookup_live self transport msg w key :
  key ≠ ContentKeywordRouter.get_message_key self (message_id msg) →
  lookup_live (correlated self transport msg w) key = lookup_live w key.
Proof.
  intros Hne. unfold lookup_live, correlated, with_db, publish_all. simpl.
  by rewrite lookup_insert_ne.
Qed.

Lemma lookup_live_advance_correlated self transport msg w elapsed key :
  lookup_live (advance elapsed (correlated self transport msg w)) key =
    if decide (key = ContentKeywordRouter.get_message_key self (message_id msg))
    then (if (elapsed <? ContentKeywordRouter.expire_routing_timeout self)%Z
          then Some (transport_name msg) else None)
    else lookup_live (advance elapsed w) key.
Proof.
  destruct (decide (key = _)) as [->|Hne].
  - apply correlated_lookup_live.
  - unfold lookup_live, advance, correlated, with_db, publish_all. simpl.
    by rewrite lookup_insert_ne.
Qed.

(** X16. Correlation entries are kept per message id: after two outbound
    messages with different ids, an event for the first one, arriving
    before the expiry, still finds the [transport_name] of the first
    message; had both the same id, it would find that of the second. *)
Theorem keyword_correlation_per_message_id
    (d : BaseDispatchWorker) (self : ContentKeywordRouter.t)
    (first second : TransportUserMessage) (t1 t2 : string)
    (ev : TransportEvent) (elapsed : Z) (w : world) :
  ContentKeywordRouter.transport_mappings self !! from_addr first = Some t1 →
  ContentKeywordRouter.transport_mappings self !! from_addr second = Some t2 →
  t1 ∈ _transport_names d → t2 ∈ _transport_names d →
  user_message_id ev = message_id first →
  (0 <= elapsed < ContentKeywordRouter.expire_routing_timeout self)%Z →
  ∃ w1 w2,
    ContentKeywordRouter.dispatch_outbound_message d self first w = (Ok tt, w1)
    ∧ ContentKeywordRouter.dispatch_outbound_message d self second w1 = (Ok tt, w2)
    ∧ lookup_live (advance elapsed w2)
        (ContentKeywordRouter.get_message_key self (user_message_id ev))
      = Some (if decide (message_id first = message_id second)
              then transport_name second else transport_name first).
Proof.
  intros Hl1 Hl2 Hin1 Hin2 Hid Hel.
  exists (correlated self t1 first w), (correlated self t2 second (correlated self t1 first w)).
  split; [by apply keyword_outbound_run|]. split; [by apply keyword_outbound_run|].
  rewrite Hid, lookup_live_advance_correlated.
  destruct (decide (message_id first = message_id second)) as [Heq|Hne].
  - rewrite decide_True by (by rewrite Heq).
    by rewrite (proj2 (Z.ltb_lt _ _)) by lia.
  - rewrite decide_False by (intros Hk; by apply message_key_inj in Hk).
    rewrite correlated_lookup_live.
    by rewrite (proj2 (Z.ltb_lt _ _)) by lia.
Qed.

Lemma keyword_correlation_per_message_id_witness :
  ∃ w1 w2,
    ContentKeywordRouter.dispatch_outbound_message
      Sample.worker SampleKeyword.router SampleCorrelation.reply Sample.w0 = (Ok tt, w1)
    ∧ ContentKeywordRouter.dispatch_outbound_message
        Sample.worker SampleKeyword.router SampleOutbound.other_reply w1 = (Ok tt, w2)
    ∧ lookup_live (advance 5 w2)
        (ContentKeywordRouter.get_message_key SampleKeyword.router
           (user_message_id Sample.event))
      = Some (if decide (message_id SampleCorrelation.reply
                         = message_id SampleOutbound.other_reply)
              then transport_name SampleOutbound.other_reply
              else transport_name SampleCorrelation.reply).
Proof.
  apply (keyword_correlation_per_message_id
           Sample.worker SampleKeyword.router
           SampleCorrelation.reply SampleOutbound.other_reply "t1" "t1"
           Sample.event 5%Z Sample.w0).
  - reflexivity.
  - reflexivity.
  - repeat constructor.
  - repeat constructor.
  - reflexivity.
  - simpl. lia.
Defined.

(** ** ContentKeywordRouter: matching one rule *)

(** X17. [is_msg_matching_routing_rules] raises the [KeyError] of [keyword] for
    a rule without that key; for any other rule it returns, without any
    effect, whether the keyword is that of the rule, the [to_addr] of the
    rule (if any) is that of the message, and the [prefix] of the rule (if
    any) starts the [from_addr] of the message. *)
Theorem is_msg_matching_routing_rules_decides
    (keyword : string) (msg : TransportUserMessage) (r : rule) (w : world) :
  (rule_keyword r = None →
   ContentKeywordRouter.is_msg_matching_routing_rules keyword msg r w =
     (Raise (KeyError (Some "keyword")), w))
  ∧ (∀ k, rule_keyword r = Some k →
       ∃ b, ContentKeywordRouter.is_msg_matching_routing_rules keyword msg r w = (Ok b, w)
            ∧ (b = true ↔
                 keyword = k
                 ∧ (∀ a, rule_to_addr r = Some a → to_addr msg = a)
                 ∧ (∀ p, rule_prefix r = Some p → ∃ rest, from_addr msg = p +:+ rest))).
Proof.
  split.
  - intros Hk. unfold ContentKeywordRouter.is_msg_matching_routing_rules, bind.
    by rewrite Hk.
  - intros k Hk. exists (rule_matches keyword msg r).
    split; [by eapply is_msg_matching_routing_rules_run|].
    rewrite rule_matches_spec, Hk. split.
    + intros ([= ->] & Ha & Hp). done.
    + intros (-> & Ha & Hp). done.
Qed.

Lemma is_msg_matching_routing_rules_decides_witness :
  ContentKeywordRouter.is_msg_matching_routing_rules
    "register" Sample.msg SampleOutbound.keyless Sample.w0 =
    (Raise (KeyError (Some "keyword")), Sample.w0)
  ∧ ∃ b, ContentKeywordRouter.is_msg_matching_routing_rules
           "register" Sample.msg
           (Rule (Some "app2") (Some "register") None (Some "+27")) Sample.w0 = (Ok b, Sample.w0)
         ∧ (b = true ↔
              "register" = "register"
              ∧ (∀ a, None = Some a → to_addr Sample.msg = a)
              ∧ (∀ p, Some "+27" = Some p → ∃ rest, from_addr Sample.msg = p +:+ rest)).
Proof.
  split.
  - apply (proj1 (is_msg_matching_routing_rules_decides
                    "register" Sample.msg SampleOutbound.keyless Sample.w0)).
    reflexivity.
  - apply (proj2 (is_msg_matching_routing_rules_decides
                    "register" Sample.msg
                    (Rule (Some "app2") (Some "register") None (Some "+27")) Sample.w0)
                 "register").
    reflexivity.
Defined.

(** ** ContentKeywordRouter: keywords are compared without case *)

Section KeywordCase.
Context `{VumiUtils}.

Lemma keyword_inbound_matched_run d (self : ContentKeywordRouter.t) msg w :
  Forall (routable d) (ContentKeywordRouter.rules self) →
  let keyword := lower (get_first_word (content msg)) in
  let matching := List.filter (rule_matches keyword msg) (ContentKeywordRouter.rules self) in
  matching ≠ [] →
  ContentKeywordRouter.dispatch_inbound_message d self msg w =
    (Ok tt, publish_all w
              ((λ app, Publication (app +:+ ".inbound") (UserMessage msg))
                 <$> omap rule_app matching)).
Proof.
  intros Hroutable keyword matching Hne.
  unfold ContentKeywordRouter.dispatch_inbound_message. fold keyword.
  unfold bind at 1. rewrite (dispatch_rules_run _ _ _ _ _ _ Hroutable). fold matching.
  assert (Hex : existsb (rule_matches keyword msg) (ContentKeywordRouter.rules self) = true).
  { apply existsb_exists. destruct matching as [|r rest] eqn:Hm; [done|].
    assert (Hin : In r matching) by (rewrite Hm; left; done).
    apply filter_In in Hin as [Hin Hr]. by exists r. }
  by rewrite Hex.
Qed.


End KeywordCase.


(** ** UserGroupingRouter: the counter *)

(** X13. [get_counter] returns what the counter held before the call, zero on a
    store without the counter, and leaves it one higher, so that two calls
    in a row return consecutive numbers; a counter key holding something
    else than an integer makes the call fail with the error of the store
    and changes nothing. *)
Theorem get_counter_counts_up (self : UserGroupingRouter.t) (w : world) :
  let counter_key := UserGroupingRouter.r_key self ["round-robin"] in
  (∀ counter,
     counter_value w counter_key = Some counter →
     ∃ w1 w2,
       UserGroupingRouter.get_counter self w = (Ok counter, w1)
       ∧ UserGroupingRouter.get_counter self w1 = (Ok (counter + 1), w2)
       ∧ counter_value w2 counter_key = Some (counter + 2))
  ∧ (lookup_live w counter_key = None →
     (UserGroupingRouter.get_counter self w).1 = Ok 0)
  ∧ (counter_value w counter_key = None →
     UserGroupingRouter.get_counter self w = (Raise ResponseError, w)).
Proof.
  cbv zeta. unfold UserGroupingRouter.get_counter, bind. split; [|split].
  - intros counter Hc.
    exists (incremented w (UserGroupingRouter.r_key self ["round-robin"]) counter).
    exists (incremented
              (incremented w (UserGroupingRouter.r_key self ["round-robin"]) counter)
              (UserGroupingRouter.r_key self ["round-robin"]) (counter + 1)).
    rewrite (r_incr_run _ _ _ Hc).
    rewrite (r_incr_run _ _ _ (incremented_counter_value _ _ _)).
    rewrite incremented_counter_value. unfold ret.
    replace (counter + 1 - 1)%Z with counter by lia.
    replace (counter + 1 + 1 - 1)%Z with (counter + 1)%Z by lia.
    replace (counter + 1 + 1)%Z with (counter + 2)%Z by lia.
    done.
  - intros Hl. rewrite (r_incr_run _ 0 w); [done|].
    unfold counter_value. by rewrite Hl.
  - intros Hc. by rewrite (r_incr_unreadable _ _ Hc).
Qed.

Lemma get_counter_counts_up_witness :
  let counter_key := UserGroupingRouter.r_key SampleGrouping.router ["round-robin"] in
  (∃ w1 w2,
     UserGroupingRouter.get_counter SampleGrouping.router Sample.w0 = (Ok 0, w1)
     ∧ UserGroupingRouter.get_counter SampleGrouping.router w1 = (Ok (0 + 1), w2)
     ∧ counter_value w2 counter_key = Some (0 + 2))
  ∧ (UserGroupingRouter.get_counter SampleGrouping.router Sample.w0).1 = Ok 0
  ∧ UserGroupingRouter.get_counter SampleGrouping.router
      (stored Sample.w0 counter_key "many") =
      (Raise ResponseError, stored Sample.w0 counter_key "many").
Proof.
  split; [|split].
  - apply (proj1 (get_counter_counts_up SampleGrouping.router Sample.w0)). reflexivity.
  - apply (proj1 (proj2 (get_counter_counts_up SampleGrouping.router Sample.w0))).
    reflexivity.
  - apply (proj2 (proj2 (get_counter_counts_up SampleGrouping.router
                    (stored Sample.w0
                       (UserGroupingRouter.r_key SampleGrouping.router ["round-robin"])
                       "many")))).
    vm_compute. reflexivity.
Defined.

Lemma grouping_keys_never_clash_witness :
  "u1" = "u1"
  ∧ UserGroupingRouter.get_user_key SampleGrouping.router "u1"
      ≠ UserGroupingRouter.r_key SampleGrouping.router ["round-robin"]
  ∧ UserGroupingRouter.get_user_key SampleGrouping.router "u1"
      ≠ UserGroupingRouter.get_group_key SampleGrouping.router "group1".
Proof.
  destruct (grouping_keys_never_clash SampleGrouping.router "u1" "u1" "group1")
    as (Hinj & Hcounter & Hgroup).
  split; [by apply Hinj | by split].
Defined.
